(** * Io spectral-cube reduction pipeline: a shallow embedding

    This development embeds the array manipulations of the notebook
    [io.ipynb] (band subsetting, spectral collapse, mask combination,
    masked spectrum extraction, centre-of-light, per-pixel slope fit and
    the configuration of the model-fitting plugin) and proves the
    properties stated for them.

    Numbers.  The notebook computes in IEEE double precision.  Here a
    double is an exact rational or one of the three special values
    [+inf], [-inf], [nan]: rounding and overflow are idealised away, the
    propagation of the special values is kept.  Quantities that are never
    special in the notebook (wavelengths, pixel coordinates, fit
    parameters) are plain rationals. *)

From Stdlib Require Import QArith Qminmax ZArith Lia Lqa.
From stdpp Require Import base list strings pretty gmap.

Local Open Scope Q_scope.

(** [Qnat n] is the integer [n] converted to a rational, as numpy does
    when an integer meets a float. *)
Definition Qnat (n : nat) : Q := inject_Z (Z.of_nat n).

(** ** Units ([astropy.units], the two the notebook converts between) *)

Module u.

Inductive Unit : Type := um | AA.

(** Number of units in one micron. *)
Definition per_micron (x : Unit) : Q :=
  match x with um => 1 | AA => 10000 end.

(** Multiplier that converts a magnitude in [src] to one in [dst]. *)
Definition factor (src dst : Unit) : Q := per_micron dst / per_micron src.

End u.

(** A one-dimensional [Quantity]: magnitudes and their common unit. *)
Record Quantity : Type := mkQuantity { value : list Q; q_unit : u.Unit }.

(** [q.to(target)] *)
Definition to (target : u.Unit) (q : Quantity) : Quantity :=
  {| value := map (fun x => x * u.factor (q_unit q) target) (value q);
     q_unit := target |}.

(** [q.to_value(target)] *)
Definition to_value (target : u.Unit) (q : Quantity) : list Q :=
  value (to target q).

(** ** numpy: reductions of one-dimensional arrays and [linspace] *)

Fixpoint min_from (x : Q) (l : list Q) : Q :=
  match l with
  | [] => x
  | y :: t => min_from (Qmin x y) t
  end.

Fixpoint max_from (x : Q) (l : list Q) : Q :=
  match l with
  | [] => x
  | y :: t => max_from (Qmax x y) t
  end.

(** [a.min()] and [a.max()]; a zero-size array raises [ValueError]. *)
Definition np_min (a : list Q) : option Q :=
  match a with [] => None | x :: t => Some (min_from x t) end.

Definition np_max (a : list Q) : option Q :=
  match a with [] => None | x :: t => Some (max_from x t) end.

(** [np.arange(0, num)] as floats. *)
Definition arange (num : nat) : list Q := map Qnat (seq 0 num).

(** [np.linspace(start, stop, num)] with [endpoint=True]:
<<
    div = num - 1
    delta = stop - start
    y = arange(0, num)
    if div > 0:
        step = delta / div
        if step == 0:  y = y / div;  y = y * delta
        else:          y = y * step
    else:
        y = y * delta
    y += start
    if num > 1:  y[-1] = stop
>> *)
Definition linspace (start stop : Q) (num : nat) : list Q :=
  let div := Nat.pred num in
  let delta := stop - start in
  let y := arange num in
  let y :=
    if (0 <? div)%nat then
      let step := delta / Qnat div in
      if Qeq_bool step 0
      then map (fun v => v / Qnat div * delta) y
      else map (fun v => v * step) y
    else map (fun v => v * delta) y in
  let y := map (fun v => v + start) y in
  if (1 <? num)%nat then <[Nat.pred (length y) := stop]> y else y.

(** ** Spectral Subsetter: the band edges

<<
    subset_edges = np.linspace(wavelength.min(), wavelength.max(), n_subsets + 1)
    subset_bounds = [subset_edges[i:i+2].to(u.um).value for i in range(n_subsets)]
>> *)
Definition subset_edges (wavelength : Quantity) (n_subsets : nat)
  : option Quantity :=
  match np_min (value wavelength), np_max (value wavelength) with
  | Some lo, Some hi =>
      Some {| value := linspace lo hi (n_subsets + 1);
              q_unit := q_unit wavelength |}
  | _, _ => None
  end.

(** [q[i:j]] on a Quantity. *)
Definition qslice (i j : nat) (q : Quantity) : Quantity :=
  {| value := take (j - i) (drop i (value q)); q_unit := q_unit q |}.

Definition subset_bounds (wavelength : Quantity) (n_subsets : nat)
  : option (list (list Q)) :=
  match subset_edges wavelength n_subsets with
  | Some edges =>
      Some (map (fun i => value (to u.um (qslice i (i + 2) edges)))
                (seq 0 n_subsets))
  | None => None
  end.

(** A magnitude in the unit [src] expressed in microns. *)
Definition microns (src : u.Unit) (x : Q) : Q := x * u.factor src u.um.

(** The [i]-th edge as [linspace] computes it. *)
Definition computed_edge (lo hi : Q) (n i : nat) : Q :=
  nth i (linspace lo hi (n + 1)) 0.

(** The [i]-th of [n+1] linearly spaced points between [lo] and [hi]. *)
Definition edge_at (lo hi : Q) (n i : nat) : Q :=
  lo + Qnat i * (hi - lo) / Qnat n.

(** ** Doubles

    A double is an exact rational or a special value.  Zero carries no
    sign; a division by zero yields the infinity of the numerator's sign,
    [0/0] and [0 * inf] yield [nan]. *)

Inductive double : Type := Fin (q : Q) | PInf | NInf | NaN.

(** [np.isnan] *)
Definition isnan (x : double) : bool :=
  match x with NaN => true | _ => false end.

Definition sgn (q : Q) : Z := Z.sgn (Qnum q).

Definition fsign (x : double) : Z :=
  match x with Fin q => sgn q | PInf => 1 | NInf => -1 | NaN => 0 end.

Definition inf_of_sign (s : Z) : double :=
  match s with Z0 => NaN | Zpos _ => PInf | Zneg _ => NInf end.

Definition fadd (x y : double) : double :=
  match x, y with
  | NaN, _ | _, NaN => NaN
  | Fin a, Fin b => Fin (a + b)
  | PInf, NInf | NInf, PInf => NaN
  | PInf, _ | _, PInf => PInf
  | NInf, _ | _, NInf => NInf
  end.

Definition fmul (x y : double) : double :=
  match x, y with
  | NaN, _ | _, NaN => NaN
  | Fin a, Fin b => Fin (a * b)
  | _, _ => inf_of_sign (fsign x * fsign y)
  end.

Definition fdiv (x y : double) : double :=
  match x, y with
  | NaN, _ | _, NaN => NaN
  | Fin a, Fin b => if Qeq_bool b 0 then inf_of_sign (sgn a) else Fin (a / b)
  | Fin _, _ => Fin 0
  | _, Fin b => inf_of_sign (fsign x * (if Qeq_bool b 0 then 1 else sgn b))
  | _, _ => NaN
  end.

(** Two doubles are the same value. *)
Definition feq (x y : double) : Prop :=
  match x, y with
  | Fin a, Fin b => a == b
  | PInf, PInf | NInf, NInf | NaN, NaN => True
  | _, _ => False
  end.

(** The same reading for a value that may be the masked constant. *)
Definition ofeq (x y : option double) : Prop :=
  match x, y with
  | Some a, Some b => feq a b
  | None, None => True
  | _, _ => False
  end.

(** [a.sum()] of a one-dimensional array. *)
Definition fsum (l : list double) : double := foldr fadd (Fin 0) l.

(** ** Arrays

    A numpy array of two or three dimensions is its shape and its items;
    [item3 a i j k] is [a[i, j, k]]. *)

Record array2 (A : Type) : Type :=
  mkArray2 { shape2 : nat * nat; item2 : nat -> nat -> A }.
Record array3 (A : Type) : Type :=
  mkArray3 { shape3 : nat * nat * nat; item3 : nat -> nat -> nat -> A }.
Arguments mkArray2 {A} _ _.
Arguments shape2 {A} _.
Arguments item2 {A} _ _ _.
Arguments mkArray3 {A} _ _.
Arguments shape3 {A} _.
Arguments item3 {A} _ _ _ _.

(** An array literal given as nested lists, [d] standing where the lists
    are too short. *)
Definition of_lists2 {A} (d : A) (n0 n1 : nat) (l : list (list A)) : array2 A :=
  mkArray2 (n0, n1) (fun i j => nth j (nth i l []) d).

Definition of_lists3 {A} (d : A) (n0 n1 n2 : nat) (l : list (list (list A)))
  : array3 A :=
  mkArray3 (n0, n1, n2) (fun i j k => nth k (nth j (nth i l []) []) d).

(** [a.T] *)
Definition T {A} (a : array2 A) : array2 A :=
  mkArray2 (snd (shape2 a), fst (shape2 a)) (fun i j => item2 a j i).

(** [np.swapaxes(a, 1, 0)] *)
Definition swapaxes_1_0 {A} (a : array3 A) : array3 A :=
  let '(n0, n1, n2) := shape3 a in
  mkArray3 (n1, n0, n2) (fun i j k => item3 a j i k).

(** The one-dimensional lanes of [a] along [axis], one per position of the
    two remaining axes (kept in their order).  An axis out of bounds
    raises [AxisError]. *)
Definition lanes {A} (axis : nat) (a : array3 A) : option (array2 (list A)) :=
  let '(n0, n1, n2) := shape3 a in
  match axis with
  | 0%nat => Some (mkArray2 (n1, n2)
               (fun p q => map (fun k => item3 a k p q) (seq 0 n0)))
  | 1%nat => Some (mkArray2 (n0, n2)
               (fun p q => map (fun k => item3 a p k q) (seq 0 n1)))
  | 2%nat => Some (mkArray2 (n0, n1)
               (fun p q => map (fun k => item3 a p q k) (seq 0 n2)))
  | _ => None
  end.

Definition map2d {A B} (f : A -> B) (a : array2 A) : array2 B :=
  mkArray2 (shape2 a) (fun p q => f (item2 a p q)).

(** A reduction of a three-dimensional array along one axis. *)
Definition reduce {A B} (f : list A -> B) (axis : nat) (a : array3 A)
  : option (array2 B) :=
  match lanes axis a with
  | Some l => Some (map2d f l)
  | None => None
  end.

(** [axis] of a three-dimensional array, negative values counting from
    the end; anything else raises [AxisError]. *)
Definition normalize_axis (axis : Z) : option nat :=
  if ((0 <=? axis) && (axis <? 3))%Z then Some (Z.to_nat axis)
  else if ((-3 <=? axis) && (axis <? 0))%Z then Some (Z.to_nat (axis + 3))
  else None.

(** ** Masked arrays ([numpy.ma]): data and mask of one shape, [true]
    marking an invalid item *)

Record MaskedArray2 : Type :=
  mkMasked2 { data2 : array2 double; mask2 : array2 bool }.
Record MaskedArray3 : Type :=
  mkMasked3 { data3 : array3 double; mask3 : array3 bool }.

(** [m[p, q]]: the masked constant ([None]) for a masked item. *)
Definition getitem2 (m : MaskedArray2) (p q : nat) : option double :=
  if item2 (mask2 m) p q then None else Some (item2 (data2 m) p q).

(** [m.filled(fill_value)] *)
Definition filled (fill_value : double) (m : MaskedArray3) : array3 double :=
  mkArray3 (shape3 (data3 m))
    (fun i j k => if item3 (mask3 m) i j k then fill_value
                  else item3 (data3 m) i j k).

(** [np.ma.sum(m, axis=axis)]: [MaskedArray.sum] computes
    [self.filled(0).sum(axis)] and masks the result where
    [self.mask.all(axis)]. *)
Definition np_ma_sum (m : MaskedArray3) (axis : Z) : option MaskedArray2 :=
  ax ← normalize_axis axis;
  d ← reduce fsum ax (filled (Fin 0) m);
  newmask ← reduce (forallb id) ax (mask3 m);
  Some (mkMasked2 d newmask).

(** Number of unmasked items of a lane of the mask. *)
Definition count_unmasked (lane : list bool) : nat :=
  length (List.filter negb lane).

(** Modelled from the spec: the arithmetic-mean reduction of the Spatial
    Collapser ("sum or arithmetic mean, treating masked samples as
    excluded from the reduction"), which the notebook leaves to the
    reader; as [MaskedArray.mean] it divides the sum of the unmasked items
    by their number and masks the result where there is none. *)
Definition np_ma_mean (m : MaskedArray3) (axis : Z) : option MaskedArray2 :=
  ax ← normalize_axis axis;
  dsum ← reduce fsum ax (filled (Fin 0) m);
  cnt ← reduce count_unmasked ax (mask3 m);
  Some (mkMasked2
          (mkArray2 (shape2 dsum)
             (fun p q => fdiv (item2 dsum p q) (Fin (Qnat (item2 cnt p q)))))
          (mkArray2 (shape2 cnt) (fun p q => (item2 cnt p q =? 0)%nat))).

(** ** The spectral cube and its sub-cubes *)

(** The cube as Cubeviz holds it: the flux with the spectral axis last,
    the spectral axis, and the FITS header. *)
Record SpectralCube : Type := mkCube {
  flux : array3 double;
  wavelength : Quantity;
  meta : gmap string Z
}.

(** A three-dimensional [NDDataArray]. *)
Record NDDataArray3 : Type := mkND3 {
  nd3_data : array3 double;
  nd3_mask : array3 bool
}.

(** [glue.core.roi.XRangeROI(min, max)] *)
Record XRangeROI : Type := mkXRangeROI { roi_min : Q; roi_max : Q }.

(** [XRangeROI] applied to the unpacked limits of a band. *)
Definition XRangeROI_of (limits : list Q) : option XRangeROI :=
  match limits with
  | [lo; hi] => Some (mkXRangeROI lo hi)
  | _ => None
  end.

(** The subset state glue derives from the ROI is a
    [RangeSubsetState(lo, hi)], whose mask is [(x >= lo) & (x <= hi)]. *)
Definition to_mask (roi : XRangeROI) (x : Q) : bool :=
  Qle_bool (roi_min roi) x && Qle_bool x (roi_max roi).

(** The subsets of the application, in the order of their creation. *)
Definition Subsets : Type := list (string * XRangeROI).

(** [f"Subset {i}"] *)
Definition subset_label_of (i : nat) : string := "Subset " +:+ pretty i.

(** [spectrum_viewer.apply_roi(roi)] with [edit_subset = None]: a new
    subset, labelled with the next free number. *)
Definition apply_roi (roi : XRangeROI) (subsets : Subsets) : Subsets :=
  subsets ++ [(subset_label_of (length subsets + 1), roi)].

(** The subsets of an application that only ever got numbered subsets. *)
Definition numbered (subsets : Subsets) : Prop :=
  map fst subsets = map subset_label_of (seq 1 (length subsets)).

(** The first subset carrying the label. *)
Definition find_subset (subset_label : string) (subsets : Subsets)
  : option XRangeROI :=
  snd <$> find (fun s => String.eqb (fst s) subset_label) subsets.

(** Whether spectral sample [k] belongs to the subset: the viewer's axis
    is in microns. *)
Definition selects (cube : SpectralCube) (roi : XRangeROI) (k : nat) : bool :=
  match to_value u.um (wavelength cube) !! k with
  | Some x => to_mask roi x
  | None => false
  end.

(** [data.get_subset_object(subset_label, cls=NDDataArray)]: the data of
    the whole cube, masked outside the subset. *)
Definition subset_object (cube : SpectralCube) (roi : XRangeROI)
  : NDDataArray3 :=
  mkND3 (flux cube)
    (mkArray3 (shape3 (flux cube)) (fun _ _ k => negb (selects cube roi k))).

Definition get_subset_object (cube : SpectralCube) (subsets : Subsets)
    (subset_label : string) : option NDDataArray3 :=
  roi ← find_subset subset_label subsets;
  Some (subset_object cube roi).

(** The spectral samples a sub-cube keeps: sample [k] is selected when it
    is unmasked at every spatial position (the mask of a sub-cube does
    not depend on the position). *)
Definition selected (band : NDDataArray3) (k : nat) : Prop :=
  forall i j, item3 (nd3_mask band) i j k = false.

(** [subset_labels = [f"Subset {i}" for i in range(1, n_subsets + 1)]] *)
Definition subset_labels (n_subsets : nat) : list string :=
  map subset_label_of (seq 1 n_subsets).

(** The loop that creates one subset per band and fetches it:
<<
    for subset_label, limits in zip(subset_labels, subset_bounds):
        cubeviz.app.session.edit_subset_mode.edit_subset = None
        spectrum_viewer.apply_roi(XRangeROI( *limits))
        bandpasses.append(data.get_subset_object(subset_label, cls=NDDataArray))
>> *)
Fixpoint bandpass_loop (cube : SpectralCube)
    (todo : list (string * list Q)) (subsets : Subsets)
    (bandpasses : list NDDataArray3) : option (Subsets * list NDDataArray3) :=
  match todo with
  | [] => Some (subsets, bandpasses)
  | (subset_label, limits) :: rest =>
      roi ← XRangeROI_of limits;
      let subsets := apply_roi roi subsets in
      band ← get_subset_object cube subsets subset_label;
      bandpass_loop cube rest subsets (bandpasses ++ [band])
  end.

(** The subsetting cell, run on an application holding [subsets]. *)
Definition bandpasses (cube : SpectralCube) (n_subsets : nat)
    (subsets : Subsets) : option (list NDDataArray3) :=
  bounds ← subset_bounds (wavelength cube) n_subsets;
  snd <$> bandpass_loop cube (zip (subset_labels n_subsets) bounds) subsets [].

(** The samples of a sub-cube, each with its mask flag. *)
Definition paired (band : NDDataArray3) : array3 (bool * double) :=
  mkArray3 (shape3 (nd3_data band))
    (fun i j k => (item3 (nd3_mask band) i j k, item3 (nd3_data band) i j k)).

(** The values of the unmasked samples of a lane. *)
Definition unmasked_samples (lane : list (bool * double)) : list double :=
  map snd (List.filter (fun s => negb (fst s)) lane).

Definition all_masked (lane : list (bool * double)) : bool :=
  forallb fst lane.

(** ** Celestial coordinates *)

(** The celestial WCS: the sky position of a pixel position, the pixel
    axes in WCS order. *)
Record WCS (Sky : Type) : Type :=
  mkWCS { pixel_to_world : Q -> Q -> Sky * Sky }.
Arguments mkWCS {Sky} _.
Arguments pixel_to_world {Sky} _ _ _.

(** [wcs.swapaxes(1, 0)]: the same mapping with its two axes exchanged,
    on the pixel side and on the world side. *)
Definition wcs_swapaxes_1_0 {Sky} (wcs : WCS Sky) : WCS Sky :=
  mkWCS (fun p0 p1 => let '(w0, w1) := pixel_to_world wcs p1 p0 in (w1, w0)).

(** A two-dimensional [NDDataArray] with celestial coordinates. *)
Record NDDataArray2 (Sky : Type) : Type := mkND2 {
  nd2_data : array2 double;
  nd2_mask : array2 bool;
  nd2_wcs : WCS Sky
}.
Arguments mkND2 {Sky} _ _ _.
Arguments nd2_data {Sky} _.
Arguments nd2_mask {Sky} _.
Arguments nd2_wcs {Sky} _.

(** [NDDataArray(m, wcs=wcs)] for a masked array [m]: data and mask are
    taken apart. *)
Definition NDDataArray_of_masked {Sky} (m : MaskedArray2) (wcs : WCS Sky)
  : NDDataArray2 Sky :=
  mkND2 (data2 m) (mask2 m) wcs.

(** [np.asanyarray(nd)]: the image as a masked array again. *)
Definition as_masked {Sky} (nd : NDDataArray2 Sky) : MaskedArray2 :=
  mkMasked2 (nd2_data nd) (nd2_mask nd).

(** [m.T] of a masked array. *)
Definition ma_T (m : MaskedArray2) : MaskedArray2 :=
  mkMasked2 (T (data2 m)) (T (mask2 m)).

(** The sky position a two-dimensional [NDDataArray] gives to its item
    [[r, c]]: array indices are in the reverse of the WCS pixel order. *)
Definition sky_of_item {Sky} (nd : NDDataArray2 Sky) (r c : nat) : Sky * Sky :=
  pixel_to_world (nd2_wcs nd) (Qnat c) (Qnat r).

(** ** Spatial Collapser

<<
    def collapse(band, force_wcs=wcs_celestial.swapaxes(1, 0)):
        masked_quantity = Masked(band.data << band.unit, mask=band.mask)
        dispersion_axis = data.meta['DISPAXIS']
        collapsed_image = np.ma.sum(masked_quantity, axis=dispersion_axis)
        nddata = NDDataArray(collapsed_image.T, wcs=force_wcs)
        return nddata
>>
    The unit only tags the magnitudes and is left out.  [np.ma.sum]
    reads the masked quantity as a numpy masked array of the same data
    and mask. *)
Section Collapse.

Context {Sky : Type}.
Variable wcs_celestial : WCS Sky.
Variable data : SpectralCube.

Definition collapse (band : NDDataArray3) : option (NDDataArray2 Sky) :=
  let force_wcs := wcs_swapaxes_1_0 wcs_celestial in
  let masked_quantity := mkMasked3 (nd3_data band) (nd3_mask band) in
  dispersion_axis ← meta data !! "DISPAXIS";
  collapsed_image ← np_ma_sum masked_quantity dispersion_axis;
  Some (NDDataArray_of_masked (ma_T collapsed_image) force_wcs).

(** Modelled from the spec: the collapse by arithmetic mean, the second
    reduction the Spatial Collapser is specified with; the notebook only
    has the sum above and asks the reader for the mean images.  It is
    [collapse] with [np.ma.mean] in the place of [np.ma.sum]. *)
Definition collapse_mean (band : NDDataArray3) : option (NDDataArray2 Sky) :=
  let force_wcs := wcs_swapaxes_1_0 wcs_celestial in
  let masked_quantity := mkMasked3 (nd3_data band) (nd3_mask band) in
  dispersion_axis ← meta data !! "DISPAXIS";
  collapsed_image ← np_ma_mean masked_quantity dispersion_axis;
  Some (NDDataArray_of_masked (ma_T collapsed_image) force_wcs).

End Collapse.

(** ** Masked spectrum extraction: a cell that mutates a shared buffer

    The flux of the spatial subset lives in one numpy buffer;
    [source_spectrum.data], [masked_spec] and the base of
    [source_spectrum_ma] are that same buffer.  Buffers are kept in a
    heap and the objects hold addresses, so a write through one name is
    seen through the others. *)

Abbreviation addr := nat (only parsing).
Abbreviation Heap := (gmap nat (array3 double)).

(** Computations on the heap that may raise. *)
Definition M (A : Type) : Type := Heap -> option (A * Heap).

Definition ret {A} (x : A) : M A := fun h => Some (x, h).

Definition bind {A B} (m : M A) (f : A -> M B) : M B :=
  fun h => match m h with Some (x, h') => f x h' | None => None end.

Definition raise_or {A} (o : option A) : M A :=
  fun h => match o with Some x => Some (x, h) | None => None end.

Definition load (a : addr) : M (array3 double) :=
  fun h => match h !! a with Some v => Some (v, h) | None => None end.

Definition store (a : addr) (v : array3 double) : M unit :=
  fun h => match h !! a with Some _ => Some (tt, <[a := v]> h) | None => None end.

Notation "'do' x <- m ; k" := (bind m (fun x => k))
  (at level 10, x name, m at level 100, k at level 200).

(** An [NDDataArray] whose data is a buffer of the heap. *)
Record NDDataRef : Type := mkNDRef {
  ref_data : addr;
  ref_mask : array3 bool
}.

(** The data-quality sub-cube: integer flags and the subset's mask. *)
Record DQArray : Type := mkDQ {
  dq_data : array3 Z;
  dq_mask : array3 bool
}.

(** A masked array that is a view with the first two axes exchanged. *)
Record SwappedView : Type := mkView {
  view_base : addr;
  view_mask : array3 bool
}.

Definition map3d {A B} (f : A -> B) (a : array3 A) : array3 B :=
  mkArray3 (shape3 a) (fun i j k => f (item3 a i j k)).

Definition same_shape (s t : nat * nat * nat) : bool :=
  bool_decide (s = t).

(** [a | b] on boolean arrays; shapes that differ raise (broadcasting is
    not modelled). *)
Definition np_or (a b : array3 bool) : option (array3 bool) :=
  if same_shape (shape3 a) (shape3 b)
  then Some (mkArray3 (shape3 a) (fun i j k => item3 a i j k || item3 b i j k))
  else None.

(** [a.astype(int)] on flags that are integers already. *)
Definition astype_int (a : array3 Z) : array3 Z := a.

(** [bitfield_to_boolean_mask(bitfield)] with its defaults
    [ignore_flags=0], [good_mask_value=False]: the bits that are not
    ignored are [~0], and an item is flagged when any of them is set. *)
Definition bitfield_to_boolean_mask (bitfield : array3 Z) : array3 bool :=
  let ignore_mask := Z.lnot 0 in
  map3d (fun b => negb (Z.land b ignore_mask =? 0)%Z) bitfield.

(** [np.isnan(a)] *)
Definition np_isnan (a : array3 double) : array3 bool := map3d isnan a.

(** [a[mask] = v] *)
Definition setitem_where (mask : array3 bool) (v : double) (a : array3 double)
  : option (array3 double) :=
  if same_shape (shape3 mask) (shape3 a)
  then Some (mkArray3 (shape3 a)
               (fun i j k => if item3 mask i j k then v else item3 a i j k))
  else None.

(** The items [a[:, :, k]], row by row. *)
Definition plane {A} (a : array3 A) (k : nat) : list A :=
  let '(n0, n1, _) := shape3 a in
  flat_map (fun i => map (fun j => item3 a i j k) (seq 0 n1)) (seq 0 n0).

(** The spatial positions of an array of shape [s], row by row. *)
Definition positions (s : nat * nat * nat) : list (nat * nat) :=
  let '(n0, n1, _) := s in
  flat_map (fun i => map (pair i) (seq 0 n1)) (seq 0 n0).

(** A reduction over the axes [(0, 1)]. *)
Definition reduce_01 {A B} (f : list A -> B) (a : array3 A) : list B :=
  let '(_, _, n2) := shape3 a in
  map (fun k => f (plane a k)) (seq 0 n2).

(** [np.sum] of booleans counts the [True]s. *)
Definition count_true (l : list bool) : nat :=
  foldr (fun b n => (Nat.b2n b + n)%nat) 0%nat l.

(** [np.nansum]: NaNs are replaced by zero, then summed. *)
Definition nansum (l : list double) : double :=
  fsum (map (fun x => if isnan x then Fin 0 else x) l).

(** [count.max()]; a zero-size array raises. *)
Definition np_max_nat (l : list nat) : option nat :=
  match l with [] => None | _ => Some (max_list l) end.

(** The mask combination:
<<
    mask = bitfield_to_boolean_mask(
        mask_nddata.data.astype(int)
    ) | mask_nddata.mask | np.isnan(source_spectrum.data)
    source_spectrum.mask = mask
>> *)
Definition combine_masks (source_spectrum : NDDataRef) (mask_nddata : DQArray)
  : M NDDataRef :=
  do d <- load (ref_data source_spectrum) ;
  do m <- raise_or (np_or (bitfield_to_boolean_mask (astype_int (dq_data mask_nddata)))
                       (dq_mask mask_nddata)) ;
  do mask <- raise_or (np_or m (np_isnan d)) ;
  ret (mkNDRef (ref_data source_spectrum) mask).

(** What the cell leaves behind. *)
Record SpectrumCell : Type := mkCell {
  source_spectrum : NDDataRef;
  source_spectrum_ma : SwappedView;
  masked_spec : addr;
  count : list nat;
  masked_spectrum_flux : list double
}.

(** The rest of the cell:
<<
    source_spectrum_ma = np.swapaxes(np.asanyarray(source_spectrum), 1, 0)
    masked_spec = source_spectrum.data
    masked_spec[source_spectrum.mask] = np.nan
    count = np.sum(~np.isnan(masked_spec), axis=(0, 1))
    masked_spectrum_flux = np.nansum(source_spectrum.data, axis=(0, 1)) \
        * source_spectrum.unit * (count.max() / count)
>> *)
Definition extract_masked_spectrum (source_spectrum : NDDataRef) : M SpectrumCell :=
  let source_spectrum_ma :=
    mkView (ref_data source_spectrum) (swapaxes_1_0 (ref_mask source_spectrum)) in
  let masked_spec := ref_data source_spectrum in
  do old <- load masked_spec ;
  do new <- raise_or (setitem_where (ref_mask source_spectrum) NaN old) ;
  do _ <- store masked_spec new ;
  do ms <- load masked_spec ;
  let count := reduce_01 count_true (map3d negb (np_isnan ms)) in
  do d <- load (ref_data source_spectrum) ;
  do count_max <- raise_or (np_max_nat count) ;
  let ratio := map (fun c => fdiv (Fin (Qnat count_max)) (Fin (Qnat c))) count in
  let masked_spectrum_flux :=
    zip_with fmul (reduce_01 nansum d) ratio in
  ret (mkCell source_spectrum source_spectrum_ma masked_spec count
              masked_spectrum_flux).

(** The whole cell. *)
Definition spectrum_cell (source_spectrum : NDDataRef) (mask_nddata : DQArray)
  : M SpectrumCell :=
  do source_spectrum <- combine_masks source_spectrum mask_nddata ;
  extract_masked_spectrum source_spectrum.

(** [np.asanyarray] of a view: the masked array read from the heap as it
    is now. *)
Definition read_view (v : SwappedView) : M MaskedArray3 :=
  do base <- load (view_base v) ;
  ret (mkMasked3 (swapaxes_1_0 base) (view_mask v)).

(** The fluxes of the valid spaxels of slice [k]: the items of the data
    whose mask is not set. *)
Definition valid_fluxes (mask : array3 bool) (d : array3 double) (k : nat)
  : list double :=
  unmasked_samples (plane (mkArray3 (shape3 d)
                             (fun i j k => (item3 mask i j k, item3 d i j k))) k).

(** ** Centre of light per wavelength slice *)

(** The positions of a two-dimensional array of shape [s], row by row. *)
Definition positions2 (s : nat * nat) : list (nat * nat) :=
  flat_map (fun p => map (pair p) (seq 0 (snd s))) (seq 0 (fst s)).

(** The items of a two-dimensional array, flattened. *)
Definition items2 {A} (a : array2 A) : list A :=
  map (fun p => item2 a (fst p) (snd p)) (positions2 (shape2 a)).

(** [m.filled(fill_value)] in two dimensions. *)
Definition filled2 (fill_value : double) (m : MaskedArray2) : array2 double :=
  mkArray2 (shape2 (data2 m))
    (fun p q => if item2 (mask2 m) p q then fill_value else item2 (data2 m) p q).

(** [m.sum()] over all items: the masked constant ([None]) when every
    item is masked, else the sum of the array filled with zeros. *)
Definition ma_sum_all (m : MaskedArray2) : option double :=
  if forallb id (items2 (mask2 m)) then None
  else Some (fsum (items2 (filled2 (Fin 0) m))).

(** [np.multiply(a, wgt)] for a plain [a] and a masked [wgt]. *)
Definition ma_multiply (a : array2 Q) (wgt : MaskedArray2) : MaskedArray2 :=
  mkMasked2
    (mkArray2 (shape2 (data2 wgt))
       (fun p q => fmul (Fin (item2 a p q)) (item2 (data2 wgt) p q)))
    (mask2 wgt).

(** [np.ma.average(a, weights=weights)] with [axis=None] and an unmasked
    [a]:
<<
    if a.shape != wgt.shape: raise TypeError
    scl = wgt.sum()
    avg = np.multiply(a, wgt).sum() / scl
>>
    The result is the masked constant when every weight is masked. *)
Definition np_ma_average (a : array2 Q) (weights : MaskedArray2)
  : option (option double) :=
  if bool_decide (shape2 a = shape2 (data2 weights)) then
    Some (match ma_sum_all (ma_multiply a weights), ma_sum_all weights with
          | Some num, Some scl => Some (fdiv num scl)
          | _, _ => None
          end)
  else None.

(** [m.transpose(2, 0, 1)[k]]: the slice of a masked cube at spectral
    sample [k]. *)
Definition wl_slice (m : MaskedArray3) (k : nat) : MaskedArray2 :=
  mkMasked2
    (mkArray2 (fst (shape3 (data3 m))) (fun p q => item3 (data3 m) p q k))
    (mkArray2 (fst (shape3 (mask3 m))) (fun p q => item3 (mask3 m) p q k)).

(** The body of the loop, for one slice:
<<
    xbar = np.ma.average(xx, weights=wl_slice)
    ybar = np.ma.average(yy, weights=wl_slice)
>>
    [xx] and [yy] are the coordinate grids the reader is asked to build;
    they are taken as given. *)
Definition centroid (xx yy : array2 Q) (wl_slice : MaskedArray2)
  : option (option double * option double) :=
  xbar ← np_ma_average xx wl_slice;
  ybar ← np_ma_average yy wl_slice;
  Some (xbar, ybar).

(** The loop over the slices of [source_spectrum_ma], and the final
    [np.transpose(coords)]: the abscissas and the ordinates. *)
Definition centre_of_light (xx yy : array2 Q) (source_spectrum_ma : MaskedArray3)
  : option (list (option double) * list (option double)) :=
  coords ← mapM (fun k => centroid xx yy (wl_slice source_spectrum_ma k))
                (seq 0 (snd (shape3 (data3 source_spectrum_ma))));
  Some (map fst coords, map snd coords).

(** A slice with every flux multiplied by [c]. *)
Definition scale_weights (c : Q) (wl_slice : MaskedArray2) : MaskedArray2 :=
  mkMasked2 (map2d (fmul (Fin c)) (data2 wl_slice)) (mask2 wl_slice).

(** Sum of rationals. *)
Definition Qsum (l : list Q) : Q := foldr Qplus 0 l.

(** ** Per-pixel spectral slope *)

(** A one-dimensional masked array. *)
Record MaskedArray1 : Type :=
  mkMasked1 { data1 : list double; mask1 : list bool }.

Definition Qlt_bool (x y : Q) : bool := negb (Qle_bool y x).

(** [long_wavelengths = 7 * u.um < extracted_spectrum.wavelength] *)
Definition long_wavelengths (wavelength : Quantity) : list bool :=
  map (fun x => Qlt_bool 7 (microns (q_unit wavelength) x)) (value wavelength).

(** [a[index]] for a boolean [index]. *)
Fixpoint select {A} (index : list bool) (a : list A) : list A :=
  match index, a with
  | b :: index', x :: a' => if b then x :: select index' a' else select index' a'
  | _, _ => []
  end.

(** [np.count_nonzero] *)
Definition count_nonzero (index : list bool) : nat :=
  length (List.filter id index).

(** The spectrum of the spaxel at a position, along the last axis. *)
Definition spaxel {A} (a : array3 A) (p : nat * nat) : list A :=
  map (fun k => item3 a (fst p) (snd p) k) (seq 0 (snd (shape3 a))).

(** One masked spectrum per spaxel, restricted to the long wavelengths:
<<
    extracted_spectrum_per_pixel = np.reshape(
        source_spectrum_ma[..., long_wavelengths],
        (-1, np.count_nonzero(long_wavelengths))
    )
>>
    With no long wavelength the array is empty and the row count behind
    [-1] cannot be inferred: [reshape] raises. *)
Definition extracted_spectrum_per_pixel (source_spectrum_ma : MaskedArray3)
    (long_wavelengths : list bool) : option (list MaskedArray1) :=
  if (count_nonzero long_wavelengths =? 0)%nat then None
  else Some (map (fun p =>
                    mkMasked1
                      (select long_wavelengths (spaxel (data3 source_spectrum_ma) p))
                      (select long_wavelengths (spaxel (mask3 source_spectrum_ma) p)))
                 (positions (shape3 (data3 source_spectrum_ma)))).

(** [np.vander(x, 2)]: the columns [x] and [1]. *)
Definition vander2 (x : list Q) : list (Q * Q) := map (fun v => (v, 1)) x.

(** The values of an array of finite doubles. *)
Definition finite_values (y : list double) : option (list Q) :=
  mapM (fun v => match v with Fin q => Some q | _ => None end) y.

(** [np.linalg.lstsq(X, y, rcond=-1)[0]] for a matrix [X] of two columns
    [(u, v)], in exact arithmetic: the least-squares solution of smallest
    norm.  With independent columns it solves the normal equations; a
    matrix of rank one has the pseudo-inverse [X^T / |X|^2]; the zero
    matrix gives zero.  The mask of a masked [y] is ignored; a [y] that
    holds a NaN or an infinity gives NaNs.  Row counts that differ raise
    [LinAlgError]. *)
Definition lstsq (X : list (Q * Q)) (y : list double) : option (list double) :=
  if negb (length X =? length y)%nat then None
  else
    match finite_values y with
    | None => Some [NaN; NaN]
    | Some yq =>
        let Suu := Qsum (map (fun r => fst r * fst r) X) in
        let Suv := Qsum (map (fun r => fst r * snd r) X) in
        let Svv := Qsum (map (fun r => snd r * snd r) X) in
        let Suy := Qsum (zip_with (fun r t => fst r * t) X yq) in
        let Svy := Qsum (zip_with (fun r t => snd r * t) X yq) in
        let det := Suu * Svv - Suv * Suv in
        if negb (Qeq_bool det 0) then
          Some [Fin ((Svv * Suy - Suv * Svy) / det);
                Fin ((Suu * Svy - Suv * Suy) / det)]
        else if Qeq_bool (Suu + Svv) 0 then Some [Fin 0; Fin 0]
        else Some [Fin (Suy / (Suu + Svv)); Fin (Svy / (Suu + Svv))]
    end.

(** [a[i] = v]; an index out of bounds raises [IndexError]. *)
Definition setitem {A} (i : nat) (v : A) (a : list A) : option (list A) :=
  if (i <? length a)%nat then Some (<[i := v]> a) else None.

(** The wavelength offsets of the long wavelengths from the first of
    them, in Angstrom:
<<
    wavelengths = extracted_spectrum.wavelength[long_wavelengths]
    (wavelengths - wavelengths[0]).to_value(u.AA)
>> *)
Definition offsets_AA (wavelength : Quantity) : option (list Q) :=
  let wavelengths :=
    mkQuantity (select (long_wavelengths wavelength) (value wavelength))
               (q_unit wavelength) in
  w0 ← head (value wavelengths);
  Some (to_value u.AA
          (mkQuantity (map (fun w => w - w0) (value wavelengths))
                      (q_unit wavelengths))).

(** The fit of one spaxel:
<<
    X = np.vander((wavelengths - wavelengths[0]).to_value(u.AA), n_params)
    np.linalg.lstsq(X, pxl_spectrum, rcond=-1)[0]
>> *)
Definition fit_pixel (wavelength : Quantity) (pxl_spectrum : MaskedArray1)
  : option (list double) :=
  x ← offsets_AA wavelength;
  lstsq (vander2 x) (data1 pxl_spectrum).

(** The two arrays the loop fills. *)
Record SlopeFit : Type := mkSlopeFit {
  betas : list (list double);
  hotspot_distances : MaskedArray1
}.

(** The loop over the spaxels, from index [i] on:
<<
    for i, pxl_spectrum in enumerate(extracted_spectrum_per_pixel):
        if not np.all(pxl_spectrum.mask):
            ...
            betas[i] = np.linalg.lstsq(X, pxl_spectrum, rcond=-1)[0]
            hotspot_distances.mask[i] = False
>> *)
Fixpoint slope_loop (wavelength : Quantity) (i : nat)
    (rows : list MaskedArray1) (st : SlopeFit) : option SlopeFit :=
  match rows with
  | [] => Some st
  | pxl_spectrum :: rest =>
      if negb (forallb id (mask1 pxl_spectrum)) then
        beta ← fit_pixel wavelength pxl_spectrum;
        betas' ← setitem i beta (betas st);
        mask' ← setitem i false (mask1 (hotspot_distances st));
        slope_loop wavelength (S i) rest
          (mkSlopeFit betas' (mkMasked1 (data1 (hotspot_distances st)) mask'))
      else slope_loop wavelength (S i) rest st
  end.

Definition n_params : nat := 2.

(** The slope cell; [distance_from_hotspot] is the image the reader is
    asked to compute and is taken as given.
<<
    betas = np.nan * np.zeros((extracted_spectrum_per_pixel.shape[0], n_params))
    hotspot_distances = np.ma.masked_array(distance_from_hotspot.ravel())
    hotspot_distances.mask = np.ones(len(hotspot_distances)).astype(bool)
>> *)
Definition slope_fit (wavelength : Quantity) (source_spectrum_ma : MaskedArray3)
    (distance_from_hotspot : array2 double) : option SlopeFit :=
  rows ← extracted_spectrum_per_pixel source_spectrum_ma
            (long_wavelengths wavelength);
  let betas := replicate (length rows) (replicate n_params NaN) in
  let distances := items2 distance_from_hotspot in
  let hotspot_distances :=
    mkMasked1 distances (replicate (length distances) true) in
  slope_loop wavelength 0 rows (mkSlopeFit betas hotspot_distances).

(** ** Composite Model Fitter: the configuration of the plugin

    The values of the parameters are only stored and handed to the
    optimizer, so their type [V] is left open. *)

Section ModelFitting.

Context {V : Type}.

(** A model parameter: its name, its value and whether the fit holds it
    fixed. *)
Record FitParameter : Type := mkParameter {
  p_name : string;
  p_value : V;
  p_fixed : bool
}.

(** A model component of the plugin. *)
Record Component : Type := mkComponent {
  c_label : string;
  c_model : string;
  c_parameters : list FitParameter
}.

(** The components of the plugin, in the order of their creation. *)
Definition Plugin : Type := list Component.

(** The defaults of the one model the notebook creates, [BlackBody]:
    a temperature and a scale, both free. *)
Variable default_temperature default_scale : V.

Definition initial_parameters (model : string) : option (list FitParameter) :=
  if String.eqb model "BlackBody"
  then Some [mkParameter "temperature" default_temperature false;
             mkParameter "scale" default_scale false]
  else None.

(** [label in modelfit_plugin.model_components] *)
Definition has_component (label : string) (plugin : Plugin) : bool :=
  existsb (fun comp => String.eqb (c_label comp) label) plugin.

(** [modelfit_plugin.create_model_component(model, label)] *)
Definition create_model_component (model label : string) (plugin : Plugin)
  : option Plugin :=
  params ← initial_parameters model;
  Some (plugin ++ [mkComponent label model params]).

(** The first parameter called [parameter] gets the value and the flag;
    a name the model does not have raises. *)
Fixpoint set_parameter (parameter : string) (value : V) (fixed : bool)
    (params : list FitParameter) : option (list FitParameter) :=
  match params with
  | [] => None
  | par :: rest =>
      if String.eqb (p_name par) parameter
      then Some (mkParameter (p_name par) value fixed :: rest)
      else cons par <$> set_parameter parameter value fixed rest
  end.

(** [modelfit_plugin.set_model_component(label, parameter, value=value,
    fixed=fixed)]; a label the plugin does not have raises. *)
Fixpoint set_model_component (label parameter : string) (value : V)
    (fixed : bool) (plugin : Plugin) : option Plugin :=
  match plugin with
  | [] => None
  | comp :: rest =>
      if String.eqb (c_label comp) label
      then params ← set_parameter parameter value fixed (c_parameters comp);
           Some (mkComponent (c_label comp) (c_model comp) params :: rest)
      else cons comp <$> set_model_component label parameter value fixed rest
  end.

(** A row of [fit_params]: its column names with its values, in the
    order of the columns. *)
Definition Row : Type := list (string * V).

(** [Table(dict(temperature=temperatures, scale=expected_scales))], row
    by row; columns of different lengths raise. *)
Definition fit_params (temperatures expected_scales : list V)
  : option (list Row) :=
  if (length temperatures =? length expected_scales)%nat
  then Some (zip_with (fun t s => [("temperature", t); ("scale", s)])
                      temperatures expected_scales)
  else None.

Definition n_components : nat := 3.

(** [n_components * ['BlackBody']] *)
Definition component_models : list string := replicate n_components "BlackBody".

(** [[f'BB{i}' for i in range(n_components)]] *)
Definition component_labels : list string :=
  map (fun i => "BB" +:+ pretty i) (seq 0 n_components).

Definition fixed_parameters : list string := ["temperature"].

(** [parameter in fixed_parameters] *)
Definition is_fixed (parameter : string) : bool :=
  existsb (String.eqb parameter) fixed_parameters.

(** The inner loop, over the columns of one row. *)
Fixpoint set_row (label : string) (params : Row) (plugin : Plugin)
  : option Plugin :=
  match params with
  | [] => Some plugin
  | (parameter, value) :: rest =>
      plugin' ← set_model_component label parameter value (is_fixed parameter)
                  plugin;
      set_row label rest plugin'
  end.

(** The outer loop:
<<
    for model, label, params in zip(component_models, component_labels, fit_params):
        if label not in modelfit_plugin.model_components:
            modelfit_plugin.create_model_component(model, label)
        for parameter in params.colnames:
            modelfit_plugin.set_model_component(
                label, parameter,
                value=params[parameter],
                fixed=parameter in fixed_parameters)
>> *)
Fixpoint configure_loop (todo : list (string * string * Row)) (plugin : Plugin)
  : option Plugin :=
  match todo with
  | [] => Some plugin
  | (model, label, params) :: rest =>
      plugin' ← (if has_component label plugin then Some plugin
                 else create_model_component model label plugin);
      plugin'' ← set_row label params plugin';
      configure_loop rest plugin''
  end.

Definition configure (temperatures expected_scales : list V) (plugin : Plugin)
  : option Plugin :=
  rows ← fit_params temperatures expected_scales;
  configure_loop (zip (zip component_models component_labels) rows) plugin.

(** The free parameters of the components, in order: what the optimizer
    is given to vary. *)
Definition free_values (plugin : Plugin) : list V :=
  flat_map (fun comp =>
              map p_value (List.filter (fun par => negb (p_fixed par))
                                       (c_parameters comp)))
           plugin.

(** The parameters with the free ones replaced by the values of [vals],
    in order; what is left of [vals] is returned. *)
Fixpoint put_free (vals : list V) (params : list FitParameter)
  : list FitParameter * list V :=
  match params with
  | [] => ([], vals)
  | par :: rest =>
      if p_fixed par then
        let '(rest', vals') := put_free vals rest in (par :: rest', vals')
      else
        match vals with
        | [] => (par :: rest, [])
        | v :: vals0 =>
            let '(rest', vals') := put_free vals0 rest in
            (mkParameter (p_name par) v false :: rest', vals')
        end
  end.

Fixpoint put_free_components (vals : list V) (plugin : Plugin) : Plugin :=
  match plugin with
  | [] => []
  | comp :: rest =>
      let '(params, vals') := put_free vals (c_parameters comp) in
      mkComponent (c_label comp) (c_model comp) params
        :: put_free_components vals' rest
  end.

(** [modelfit_plugin.calculate_fit()]: the fitter hands the free
    parameters to its optimizer and returns the model with the values it
    gets back; a fixed parameter is not among them.  What the optimizer
    computes (the least-squares minimisation against the spectrum) is
    left open. *)
Variable optimizer : list V -> list V.

Definition calculate_fit (plugin : Plugin) : Plugin :=
  put_free_components (optimizer (free_values plugin)) plugin.

(** [result[i].temperature] and the like. *)
Definition parameter_of (parameter : string) (comp : Component)
  : option FitParameter :=
  find (fun par => String.eqb (p_name par) parameter) (c_parameters comp).

End ModelFitting.

Arguments FitParameter : clear implicits.
Arguments Component : clear implicits.
Arguments Plugin : clear implicits.
Arguments Row : clear implicits.

(** ** Further cells of the notebook *)

(** [short_wavelengths = 5 * u.um > extracted_spectrum.wavelength] *)
Definition short_wavelengths (wavelength : Quantity) : list bool :=
  map (fun x => Qlt_bool (microns (q_unit wavelength) x) 5) (value wavelength).

(** A weight that is not negative: a rational [>= 0] or [+inf]. *)
Definition nonnegative (x : double) : Prop :=
  match x with Fin q => 0 <= q | PInf => True | _ => False end.

(** [collapsed_images = [collapse(band) for band in bandpasses]] *)
Definition collapsed_images {Sky : Type} (wcs_celestial : WCS Sky)
    (data : SpectralCube) (bandpasses : list NDDataArray3)
  : option (list (NDDataArray2 Sky)) :=
  mapM (collapse wcs_celestial data) bandpasses.

(** ** The colours of the bands

<<
    hex_colors = [to_hex(c) for c in cmap(np.linspace(0, 1, n_subsets))]
    img_settings = {
        subset_label: dict(image_color=color, **defaults)
        for subset_label, color in zip(subset_labels, hex_colors)
    }
>>
    The colormap (with [to_hex] applied to its colours) and the
    dictionary [defaults] are taken as given. *)
Section ImageSettings.

Context {Color Defaults : Type}.
Variable cmap : Q -> Color.
Variable defaults : Defaults.

Definition hex_colors (n_subsets : nat) : list Color :=
  map cmap (linspace 0 1 n_subsets).

(** [dict(image_color=color, **defaults)] *)
Record Settings : Type := mkSettings {
  image_color : Color;
  other_settings : Defaults
}.

(** The dictionary comprehension: a later item with the key of an
    earlier one replaces it. *)
Definition img_settings (subset_labels : list string) (hex_colors : list Color)
  : gmap string Settings :=
  foldl (fun d item => <[fst item := mkSettings (snd item) defaults]> d) ∅
        (zip subset_labels hex_colors).

End ImageSettings.

Arguments Settings : clear implicits.
Arguments mkSettings {Color Defaults} _ _.
Arguments image_color {Color Defaults} _.
Arguments other_settings {Color Defaults} _.

(** ** Small concrete inputs *)

Module example.

(** Three spectral samples at 1, 2 and 3 microns. *)
Definition wavelength : Quantity := mkQuantity [1; 2; 3] u.um.

(** One row of two spaxels, three samples each. *)
Definition flux : array3 double :=
  of_lists3 NaN 1 2 3
    [[[Fin 7; Fin 8; Fin 9]; [Fin 5; Fin 2; Fin 3]]].

Definition cube : SpectralCube :=
  mkCube flux wavelength {["DISPAXIS" := 2%Z]}.

(** The first spaxel is masked at every sample, the second one at its
    first sample only. *)
Definition mask : array3 bool :=
  of_lists3 true 1 2 3
    [[[true; true; true]; [true; false; false]]].

Definition band : NDDataArray3 := mkND3 flux mask.

(** A celestial WCS on a rational sky, one degree per pixel. *)
Definition wcs_celestial : WCS Q := mkWCS (fun p0 p1 => (10 + p0, 20 + p1)).

(** The flux as the buffer at address 0, the sub-cube that refers to it,
    and data-quality flags that mark one more sample. *)
Definition heap : Heap := {[0%nat := flux]}.

Definition source_spectrum : NDDataRef := mkNDRef 0 mask.

Definition mask_nddata : DQArray :=
  mkDQ (of_lists3 0%Z 1 2 3 [[[0; 0; 0]; [0; 4; 0]]]%Z) mask.

(** Coordinate grids of the spatial shape and the slice at the second
    spectral sample. *)
Definition xx : array2 Q := of_lists2 0 1 2 [[0; 1]].
Definition yy : array2 Q := of_lists2 0 1 2 [[0; 0]].
Definition slice : MaskedArray2 := wl_slice (mkMasked3 flux mask) 1.

(** A spectral axis with two long wavelengths, and one with a single
    one. *)
Definition long_axis : Quantity := mkQuantity [5; 8; 9] u.um.
Definition single_axis : Quantity := mkQuantity [5; 8] u.um.

Definition distance_from_hotspot : array2 double :=
  of_lists2 NaN 1 2 [[Fin 3; Fin 4]].

(** A spaxel on the line [2 + x / 10000] and a spaxel with one sample. *)
Definition line_pixel : MaskedArray1 := mkMasked1 [Fin 2; Fin 3] [false; false].
Definition flat_pixel : MaskedArray1 := mkMasked1 [Fin 1] [false].

End example.

(** ** Inputs at the edges *)

Module edge_case.

(** An application in which the user has already drawn one subset. *)
Definition existing_subsets : Subsets := [("Subset 1", mkXRangeROI 100 200)].

(** A cube whose three samples have the same wavelength. *)
Definition flat_axis_cube : SpectralCube :=
  mkCube example.flux (mkQuantity [2; 2; 2] u.um) {["DISPAXIS" := 2%Z]}.

(** A spatial subset of a cube without a wavelength slice. *)
Definition empty_flux : array3 double := of_lists3 NaN 1 2 0 [].
Definition empty_heap : Heap := {[0%nat := empty_flux]}.
Definition empty_spectrum : NDDataRef := mkNDRef 0 (of_lists3 true 1 2 0 []).
Definition empty_dq : DQArray :=
  mkDQ (of_lists3 0%Z 1 2 0 []) (of_lists3 true 1 2 0 []).

(** The slice at the first spectral sample, where both spaxels are
    masked, and a slice of two valid spaxels without flux. *)
Definition masked_slice : MaskedArray2 :=
  wl_slice (mkMasked3 example.flux example.mask) 0.
Definition dark_slice : MaskedArray2 :=
  mkMasked2 (of_lists2 NaN 1 2 [[Fin 0; Fin 0]])
            (of_lists2 true 1 2 [[false; false]]).

(** A masked cube as the masked-spectrum cell leaves it, NaN under the
    mask: the second spaxel has one masked sample among the two long
    wavelengths of [example.long_axis]. *)
Definition partly_masked_cube : MaskedArray3 :=
  mkMasked3
    (of_lists3 NaN 1 2 3 [[[NaN; NaN; NaN]; [Fin 5; NaN; Fin 3]]])
    (of_lists3 true 1 2 3 [[[true; true; true]; [false; true; false]]]).

(** A plugin in which the user has set up a component of their own. *)
Definition user_plugin : Plugin Q :=
  [mkComponent "L" "Linear1D"
     [mkParameter "slope" 1 false; mkParameter "intercept" 0 false]].

(** A cube whose header counts the axes from one, as FITS does. *)
Definition fits_axis_cube : SpectralCube :=
  mkCube example.flux example.wavelength {["DISPAXIS" := 3%Z]}.

End edge_case.

(** * Properties *)

(** ** Rational helpers *)

Lemma Qnat_pos (n : nat) : (0 < n)%nat -> 0 < Qnat n.
Proof.
  intros H. unfold Qnat, Qlt. simpl. lia.
Qed.

Lemma Qnat_S (n : nat) : Qnat (S n) == Qnat n + 1.
Proof.
  unfold Qnat. rewrite Nat2Z.inj_succ, <- Z.add_1_r, inject_Z_plus. reflexivity.
Qed.

Lemma Qnat_0 : Qnat 0 == 0.
Proof. reflexivity. Qed.

Lemma factor_pos (a b : u.Unit) : 0 < u.factor a b.
Proof. destruct a, b; reflexivity. Qed.

(** ** Minimum and maximum of the spectral axis *)

Lemma min_from_le (l : list Q) (x : Q) :
  min_from x l <= x /\ Forall (fun y => min_from x l <= y) l.
Proof.
  revert x. induction l as [|y t IH]; intros x; simpl.
  - split; [apply Qle_refl | constructor].
  - destruct (IH (Qmin x y)) as [H1 H2]. split.
    + eapply Qle_trans; [exact H1 | apply Q.le_min_l].
    + constructor; [eapply Qle_trans; [exact H1 | apply Q.le_min_r] | exact H2].
Qed.

Lemma max_from_ge (l : list Q) (x : Q) :
  x <= max_from x l /\ Forall (fun y => y <= max_from x l) l.
Proof.
  revert x. induction l as [|y t IH]; intros x; simpl.
  - split; [apply Qle_refl | constructor].
  - destruct (IH (Qmax x y)) as [H1 H2]. split.
    + eapply Qle_trans; [apply Q.le_max_l | exact H1].
    + constructor; [eapply Qle_trans; [apply Q.le_max_r | exact H1] | exact H2].
Qed.

Lemma np_min_le (a : list Q) (lo : Q) :
  np_min a = Some lo -> Forall (fun y => lo <= y) a.
Proof.
  destruct a as [|x t]; simpl; intros H; [discriminate|].
  injection H as <-. destruct (min_from_le t x). constructor; assumption.
Qed.

Lemma np_max_ge (a : list Q) (hi : Q) :
  np_max a = Some hi -> Forall (fun y => y <= hi) a.
Proof.
  destruct a as [|x t]; simpl; intros H; [discriminate|].
  injection H as <-. destruct (max_from_ge t x). constructor; assumption.
Qed.

(** ** [linspace] *)

Lemma length_arange (num : nat) : length (arange num) = num.
Proof. unfold arange. rewrite length_map, length_seq. reflexivity. Qed.

Lemma length_linspace (start stop : Q) (num : nat) :
  length (linspace start stop num) = num.
Proof.
  unfold linspace.
  destruct (1 <? num)%nat; rewrite ?length_insert;
    destruct (0 <? Nat.pred num)%nat; try destruct (Qeq_bool _ 0);
    rewrite !length_map, length_arange; reflexivity.
Qed.

Lemma arange_lookup (num i : nat) :
  (i < num)%nat -> arange num !! i = Some (Qnat i).
Proof.
  intros H. unfold arange. rewrite list_lookup_fmap, lookup_seq_lt by exact H.
  reflexivity.
Qed.

(** The last of [n+1] points is [stop] itself, not a computed value. *)
Lemma linspace_last (lo hi : Q) (n : nat) :
  (0 < n)%nat -> linspace lo hi (n + 1) !! n = Some hi.
Proof.
  intros Hn. unfold linspace.
  replace (1 <? n + 1)%nat with true by (symmetry; apply Nat.ltb_lt; lia).
  set (y := map _ _).
  assert (Hlen : length y = (n + 1)%nat).
  { subst y. destruct (0 <? Nat.pred (n + 1))%nat; try destruct (Qeq_bool _ 0);
      rewrite !length_map, length_arange; reflexivity. }
  rewrite Hlen. replace (Nat.pred (n + 1)) with n by lia.
  apply list_lookup_insert_eq. lia.
Qed.

Lemma linspace_lookup (lo hi : Q) (n i : nat) :
  (0 < n)%nat -> (i <= n)%nat ->
  exists v, linspace lo hi (n + 1) !! i = Some v /\ v == edge_at lo hi n i.
Proof.
  intros Hn Hi.
  assert (Hq : ~ Qnat n == 0) by (pose proof (Qnat_pos n Hn); lra).
  destruct (decide (i = n)) as [->|Hne].
  - exists hi. split; [apply linspace_last; exact Hn|].
    unfold edge_at. field. exact Hq.
  - unfold linspace.
    replace (1 <? n + 1)%nat with true by (symmetry; apply Nat.ltb_lt; lia).
    replace (Nat.pred (n + 1)) with n by lia.
    replace (0 <? n)%nat with true by (symmetry; apply Nat.ltb_lt; lia).
    rewrite list_lookup_insert_ne.
    2:{ destruct (Qeq_bool _ 0); rewrite !length_map, length_arange; lia. }
    destruct (Qeq_bool ((hi - lo) / Qnat n) 0) eqn:Hz;
      rewrite !list_lookup_fmap, arange_lookup by lia; simpl;
      eexists; (split; [reflexivity|]); unfold edge_at; field; exact Hq.
Qed.

Lemma edge_at_0 (lo hi : Q) (n : nat) : edge_at lo hi n 0 == lo.
Proof.
  unfold edge_at. rewrite Qnat_0. unfold Qdiv. ring.
Qed.

Lemma edge_at_n (lo hi : Q) (n : nat) : (0 < n)%nat -> edge_at lo hi n n == hi.
Proof.
  intros Hn. unfold edge_at. field. pose proof (Qnat_pos n Hn). lra.
Qed.

Lemma edge_at_step (lo hi : Q) (n i : nat) :
  (0 < n)%nat ->
  edge_at lo hi n (S i) == edge_at lo hi n i + (hi - lo) / Qnat n.
Proof.
  intros Hn. unfold edge_at. rewrite Qnat_S. field.
  pose proof (Qnat_pos n Hn). lra.
Qed.

Lemma edge_at_lt (lo hi : Q) (n i : nat) :
  (0 < n)%nat -> lo < hi -> edge_at lo hi n i < edge_at lo hi n (S i).
Proof.
  intros Hn Hlt. rewrite edge_at_step by exact Hn.
  assert (0 < (hi - lo) / Qnat n).
  { apply Qlt_shift_div_l; [apply Qnat_pos; exact Hn | lra]. }
  lra.
Qed.

(** Any point between the first and the [k]-th edge lies between two
    consecutive edges. *)
Lemma edges_cover (lo hi : Q) (n k : nat) (x : Q) :
  (0 < k)%nat ->
  edge_at lo hi n 0 <= x -> x <= edge_at lo hi n k ->
  exists i, (i < k)%nat /\ edge_at lo hi n i <= x /\ x <= edge_at lo hi n (S i).
Proof.
  intros Hk H0. induction k as [|k IH]; [lia|]. intros Hx.
  destruct (Qlt_le_dec (edge_at lo hi n k) x) as [Hgt|Hle].
  - exists k. split; [lia|]. split; [apply Qlt_le_weak; exact Hgt | exact Hx].
  - destruct k as [|k].
    + exists 0%nat. split; [lia|]. split; [exact H0 | exact Hx].
    + destruct IH as (i & Hi & Ha & Hb); [lia | exact Hle |].
      exists i. split; [lia|]. split; assumption.
Qed.

Lemma edge_at_mono (lo hi : Q) (n i j : nat) :
  (0 < n)%nat -> lo < hi -> (i < j)%nat ->
  edge_at lo hi n i < edge_at lo hi n j.
Proof.
  intros Hn Hlt Hij. induction Hij as [|j Hij IH].
  - apply edge_at_lt; assumption.
  - eapply Qlt_trans; [exact IH | apply edge_at_lt; assumption].
Qed.

(** ** Spectral Subsetter *)

Section Subsetter.

Variable wavelength : Quantity.
Variable n : nat.
Variables lo hi : Q.
Hypothesis Hn : (1 <= n)%nat.
Hypothesis Hmin : np_min (value wavelength) = Some lo.
Hypothesis Hmax : np_max (value wavelength) = Some hi.

Local Abbreviation in_um := (microns (q_unit wavelength)).

Lemma subset_bounds_eq :
  subset_bounds wavelength n =
  Some (map (fun i => map (fun x => x * u.factor (q_unit wavelength) u.um)
                          (take 2 (drop i (linspace lo hi (n + 1)))))
            (seq 0 n)).
Proof.
  unfold subset_bounds, subset_edges. rewrite Hmin, Hmax. f_equal.
  apply map_ext. intros i. simpl. replace (i + 2 - i)%nat with 2%nat by lia.
  reflexivity.
Qed.

Lemma take2_drop (l : list Q) (i : nat) (a b : Q) :
  l !! i = Some a -> l !! S i = Some b -> take 2 (drop i l) = [a; b].
Proof.
  intros Ha Hb. rewrite (drop_S _ _ _ Ha), (drop_S _ _ _ Hb). reflexivity.
Qed.

Lemma subset_bounds_lookup (i : nat) :
  (i < n)%nat ->
  exists bounds ea eb,
    subset_bounds wavelength n = Some bounds /\
    linspace lo hi (n + 1) !! i = Some ea /\
    linspace lo hi (n + 1) !! S i = Some eb /\
    ea == edge_at lo hi n i /\ eb == edge_at lo hi n (S i) /\
    bounds !! i = Some [in_um ea; in_um eb].
Proof.
  intros Hi.
  destruct (linspace_lookup lo hi n i) as (ea & Ha & Hea); [lia | lia |].
  destruct (linspace_lookup lo hi n (S i)) as (eb & Hb & Heb); [lia | lia |].
  eexists _, ea, eb. split; [apply subset_bounds_eq|].
  repeat split; try assumption.
  rewrite list_lookup_fmap, lookup_seq_lt by exact Hi. simpl.
  rewrite (take2_drop _ _ _ _ Ha Hb). reflexivity.
Qed.

Lemma in_um_le (x y : Q) : x <= y -> in_um x <= in_um y.
Proof.
  intros H. unfold microns. apply Qmult_le_compat_r; [exact H|].
  apply Qlt_le_weak, factor_pos.
Qed.

Lemma in_um_lt (x y : Q) : x < y -> in_um x < in_um y.
Proof.
  intros H. unfold microns. apply Qmult_lt_compat_r; [apply factor_pos | exact H].
Qed.

Lemma in_um_le_inv (x y : Q) : in_um x <= in_um y -> x <= y.
Proof.
  intros H. unfold microns in H.
  apply Qmult_le_r in H; [exact H | apply factor_pos].
Qed.

(** ** C1 *)

(** C1. For a spectral axis whose minimum [lo] and maximum [hi] differ and
    a band count [n >= 1], the subsetter returns exactly [n] bands; band
    [i] is the pair of the [i]-th and [(i+1)]-th of the [n+1] linearly
    spaced edges [lo + i (hi - lo) / n] (in microns), its lower bound
    strictly below its upper bound, so the bands ascend; the upper bound
    of a band is the very same number as the lower bound of the next one
    and no other bound of two consecutive bands coincides; the first band
    starts at the axis minimum, the last one ends at the axis maximum, and
    every wavelength between minimum and maximum lies in some band. *)
Theorem subsetter_partitions_axis :
  ~ lo == hi ->
  exists bounds,
    subset_bounds wavelength n = Some bounds /\
    length bounds = n /\
    (forall i, (i < n)%nat ->
       exists a b, bounds !! i = Some [a; b] /\
         a == in_um (edge_at lo hi n i) /\
         b == in_um (edge_at lo hi n (S i)) /\
         a < b) /\
    (forall i a b c d,
       bounds !! i = Some [a; b] -> bounds !! S i = Some [c; d] ->
       b = c /\ a < c /\ b < d) /\
    (exists a b, bounds !! 0%nat = Some [a; b] /\ a == in_um lo) /\
    (exists a, bounds !! Nat.pred n = Some [a; in_um hi]) /\
    (forall x, in_um lo <= x -> x <= in_um hi ->
       exists i a b, bounds !! i = Some [a; b] /\ a <= x /\ x <= b).
Proof.
  intros Hne.
  assert (Hlt : lo < hi).
  { pose proof (np_min_le _ _ Hmin) as Hl. pose proof (np_max_ge _ _ Hmax) as Hh.
    destruct (value wavelength) as [|w ws]; [discriminate|].
    apply Forall_cons in Hl as [Hl _]. apply Forall_cons in Hh as [Hh _].
    destruct (Qlt_le_dec lo hi) as [?|Hge]; [assumption|].
    exfalso. apply Hne. apply Qle_antisym; [eapply Qle_trans; eassumption | exact Hge]. }
  assert (Hn0 : (0 < n)%nat) by lia.
  eexists. split; [apply subset_bounds_eq|].
  assert (Hband : forall i, (i < n)%nat ->
    exists ea eb, linspace lo hi (n + 1) !! i = Some ea /\
      linspace lo hi (n + 1) !! S i = Some eb /\
      ea == edge_at lo hi n i /\ eb == edge_at lo hi n (S i) /\
      map (fun i => map (fun x => x * u.factor (q_unit wavelength) u.um)
                        (take 2 (drop i (linspace lo hi (n + 1)))))
          (seq 0 n) !! i = Some [in_um ea; in_um eb]).
  { intros i Hi. destruct (subset_bounds_lookup i Hi)
      as (bs & ea & eb & Hbs & Ha & Hb & Hea & Heb & Hl).
    rewrite subset_bounds_eq in Hbs. injection Hbs as <-.
    exists ea, eb. repeat split; assumption. }
  set (bounds := map _ (seq 0 n)) in *.
  assert (Hlen : length bounds = n).
  { subst bounds. rewrite length_map, length_seq. reflexivity. }
  split; [exact Hlen|].
  split; [|split; [|split; [|split]]].
  - intros i Hi. destruct (Hband i Hi) as (ea & eb & _ & _ & Hea & Heb & Hl).
    exists (in_um ea), (in_um eb). split; [exact Hl|].
    split; [unfold microns; rewrite Hea; reflexivity|].
    split; [unfold microns; rewrite Heb; reflexivity|].
    apply in_um_lt. rewrite Hea, Heb. apply edge_at_lt; assumption.
  - intros i a b c d Hi HSi.
    assert (HSn : (S i < n)%nat).
    { apply lookup_lt_Some in HSi. lia. }
    destruct (Hband i) as (ea & eb & Ha & Hb & Hea & Heb & Hl); [lia|].
    destruct (Hband (S i) HSn) as (ea' & eb' & Ha' & Hb' & Hea' & Heb' & Hl').
    rewrite Hl in Hi. rewrite Hl' in HSi.
    injection Hi as <- <-. injection HSi as <- <-.
    rewrite Hb in Ha'. injection Ha' as <-.
    split; [reflexivity|].
    split; apply in_um_lt.
    + rewrite Hea, Heb. apply edge_at_lt; assumption.
    + rewrite Heb, Heb'. apply edge_at_lt; assumption.
  - destruct (Hband 0%nat Hn0) as (ea & eb & _ & _ & Hea & _ & Hl).
    exists (in_um ea), (in_um eb). split; [exact Hl|].
    unfold microns. rewrite Hea, edge_at_0. reflexivity.
  - destruct (Hband (Nat.pred n)) as (ea & eb & _ & Hb & _ & _ & Hl); [lia|].
    replace (S (Nat.pred n)) with n in Hb by lia.
    rewrite linspace_last in Hb by exact Hn0. injection Hb as <-.
    exists (in_um ea). exact Hl.
  - intros x Hx1 Hx2.
    set (y := x / u.factor (q_unit wavelength) u.um).
    assert (Hxy : x == in_um y).
    { unfold microns, y. field. pose proof (factor_pos (q_unit wavelength) u.um). lra. }
    destruct (edges_cover lo hi n n y) as (i & Hi & Hy1 & Hy2); [exact Hn0 | |  |].
    + rewrite edge_at_0. apply in_um_le_inv. rewrite <- Hxy. exact Hx1.
    + rewrite edge_at_n by exact Hn0. apply in_um_le_inv. rewrite <- Hxy. exact Hx2.
    + destruct (Hband i Hi) as (ea & eb & _ & _ & Hea & Heb & Hl).
      exists i, (in_um ea), (in_um eb). split; [exact Hl|].
      rewrite Hxy. split; apply in_um_le; [rewrite Hea | rewrite Heb]; assumption.
Qed.

End Subsetter.

(** ** Doubles *)

Lemma feq_refl (x : double) : feq x x.
Proof. destruct x; simpl; auto. apply Qeq_refl. Qed.

Lemma feq_sym (x y : double) : feq x y -> feq y x.
Proof. destruct x, y; simpl; auto. apply Qeq_sym. Qed.

Lemma feq_trans (x y z : double) : feq x y -> feq y z -> feq x z.
Proof. destruct x, y, z; simpl; auto; try contradiction. apply Qeq_trans. Qed.

Lemma fadd_feq (x x' y y' : double) :
  feq x x' -> feq y y' -> feq (fadd x y) (fadd x' y').
Proof.
  destruct x, x', y, y'; simpl; auto; try contradiction.
  intros H1 H2. rewrite H1, H2. reflexivity.
Qed.

Lemma fadd_0_l (x : double) : feq (fadd (Fin 0) x) x.
Proof. destruct x; simpl; auto. ring. Qed.

Lemma sgn_Qeq (a b : Q) : a == b -> sgn a = sgn b.
Proof.
  unfold sgn, Qeq. destruct a as [na da], b as [nb db]. simpl. intros H.
  destruct na, nb; simpl in *; try reflexivity; try lia.
Qed.

Lemma sgn_pos (a : Q) : 0 < a -> sgn a = 1%Z.
Proof.
  unfold sgn, Qlt. destruct a as [na da]. simpl. intros H.
  destruct na; simpl; lia.
Qed.

Lemma Qeq_bool_Qeq (a b c : Q) : a == b -> Qeq_bool a c = Qeq_bool b c.
Proof.
  intros H. destruct (Qeq_bool b c) eqn:E.
  - apply Qeq_bool_iff. apply Qeq_bool_iff in E. rewrite H. exact E.
  - destruct (Qeq_bool a c) eqn:E'; [|reflexivity].
    apply Qeq_bool_iff in E'. rewrite H in E'. apply Qeq_bool_iff in E'. congruence.
Qed.

Lemma fdiv_feq (x x' y y' : double) :
  feq x x' -> feq y y' -> feq (fdiv x y) (fdiv x' y').
Proof.
  destruct x as [a| | |], x' as [a'| | |], y as [b| | |], y' as [b'| | |];
    simpl; auto; try contradiction; intros H1 H2.
  - rewrite (Qeq_bool_Qeq _ _ _ H2). destruct (Qeq_bool b' 0) eqn:E.
    + rewrite (sgn_Qeq _ _ H1). apply feq_refl.
    + simpl. rewrite H1, H2. reflexivity.
  - apply Qeq_refl.
  - apply Qeq_refl.
  - rewrite (Qeq_bool_Qeq _ _ _ H2), (sgn_Qeq _ _ H2). apply feq_refl.
  - rewrite (Qeq_bool_Qeq _ _ _ H2), (sgn_Qeq _ _ H2). apply feq_refl.
Qed.

(** ** Spatial Collapser *)

(** The filled sum of a lane is the sum of its unmasked samples, and its
    mask is set exactly when every sample is masked. *)
Lemma filled_sum_lane {K : Type} (m : K -> bool) (d : K -> double) (ks : list K) :
  feq (fsum (map (fun k => if m k then Fin 0 else d k) ks))
      (fsum (unmasked_samples (map (fun k => (m k, d k)) ks))).
Proof.
  unfold unmasked_samples. induction ks as [|k ks IH]; simpl.
  - apply Qeq_refl.
  - destruct (m k) eqn:E; simpl.
    + eapply feq_trans; [apply fadd_0_l | exact IH].
    + apply fadd_feq; [apply feq_refl | exact IH].
Qed.

Lemma mask_all_lane {K : Type} (m : K -> bool) (d : K -> double) (ks : list K) :
  forallb id (map m ks) = all_masked (map (fun k => (m k, d k)) ks).
Proof.
  unfold all_masked. induction ks as [|k ks IH]; simpl; [reflexivity|].
  rewrite IH. reflexivity.
Qed.

Lemma count_unmasked_lane {K : Type} (m : K -> bool) (d : K -> double) (ks : list K) :
  count_unmasked (map m ks)
  = length (unmasked_samples (map (fun k => (m k, d k)) ks)).
Proof.
  unfold count_unmasked, unmasked_samples. rewrite length_map.
  induction ks as [|k ks IH]; simpl; [reflexivity|].
  destruct (m k); simpl; rewrite ?IH; reflexivity.
Qed.

Lemma all_masked_no_samples (lane : list (bool * double)) :
  all_masked lane = true <-> unmasked_samples lane = [].
Proof.
  unfold all_masked, unmasked_samples. induction lane as [|[b x] t IH]; simpl.
  - tauto.
  - destruct b; simpl; [exact IH|]. split; discriminate.
Qed.

Lemma lane_sum_reading {K : Type} (m : K -> bool) (d : K -> double) (ks : list K) :
  let lane := map (fun k => (m k, d k)) ks in
  let s := fsum (map (fun k => if m k then Fin 0 else d k) ks) in
  (all_masked lane = true ->
     forallb id (map m ks) = true /\
     (if forallb id (map m ks) then None else Some s) = None) /\
  (all_masked lane = false ->
     forallb id (map m ks) = false /\
     ofeq (if forallb id (map m ks) then None else Some s)
          (Some (fsum (unmasked_samples lane)))).
Proof.
  intros lane s. subst lane s. rewrite (mask_all_lane m d).
  split; intros Hall; rewrite Hall; (split; [reflexivity|]).
  - reflexivity.
  - apply filled_sum_lane.
Qed.

Lemma lane_mean_reading {K : Type} (m : K -> bool) (d : K -> double) (ks : list K) :
  let lane := map (fun k => (m k, d k)) ks in
  let s := fsum (map (fun k => if m k then Fin 0 else d k) ks) in
  let cnt := count_unmasked (map m ks) in
  (all_masked lane = true ->
     (if (cnt =? 0)%nat then None else Some (fdiv s (Fin (Qnat cnt)))) = None) /\
  (all_masked lane = false ->
     ofeq (if (cnt =? 0)%nat then None else Some (fdiv s (Fin (Qnat cnt))))
          (Some (fdiv (fsum (unmasked_samples lane))
                      (Fin (Qnat (length (unmasked_samples lane))))))).
Proof.
  intros lane s cnt. subst lane s cnt. rewrite (count_unmasked_lane m d).
  split; intros Hall.
  - apply all_masked_no_samples in Hall. rewrite Hall. reflexivity.
  - destruct (length _ =? 0)%nat eqn:E.
    + apply Nat.eqb_eq, length_zero_iff_nil, all_masked_no_samples in E.
      congruence.
    + simpl. apply fdiv_feq; [apply filled_sum_lane | apply Qeq_refl].
Qed.

Lemma normalize_axis_lt (axis : Z) (ax : nat) :
  normalize_axis axis = Some ax -> (ax < 3)%nat.
Proof.
  unfold normalize_axis.
  destruct ((0 <=? axis)%Z && (axis <? 3)%Z) eqn:E1.
  - intros [= <-]. apply andb_true_iff in E1 as [? ?]. lia.
  - destruct ((-3 <=? axis)%Z && (axis <? 0)%Z) eqn:E2; [|discriminate].
    intros [= <-]. apply andb_true_iff in E2 as [? ?]. lia.
Qed.

Lemma lanes_is_Some {A : Type} (ax : nat) (a : array3 A) :
  (ax < 3)%nat -> exists l, lanes ax a = Some l.
Proof.
  intros H. unfold lanes. destruct (shape3 a) as [[n0 n1] n2].
  destruct ax as [|[|[|ax]]]; try lia; eexists; reflexivity.
Qed.

Section CollapseProperties.

Context {Sky : Type}.
Variable wcs_celestial : WCS Sky.
Variable data : SpectralCube.
Variable band : NDDataArray3.
Variable axis : Z.
Variable ax : nat.
Hypothesis Hmeta : meta data !! "DISPAXIS" = Some axis.
Hypothesis Hax : normalize_axis axis = Some ax.
Hypothesis Hshape : shape3 (nd3_mask band) = shape3 (nd3_data band).

(** ** C2 *)

(** C2. Collapsing a sub-cube along the dispersion axis with the
    notebook's [collapse] (a sum) gives at every spatial pixel a value
    computed from the unmasked samples of that pixel only: the sum of the
    unmasked samples.  A pixel whose samples are all masked reads as the
    masked constant, not as a number. *)
Theorem collapse_excludes_masked :
  exists samples image,
    lanes ax (paired band) = Some samples /\
    collapse wcs_celestial data band = Some image /\
    forall r c,
      let lane := item2 samples c r in
      (all_masked lane = true ->
         item2 (nd2_mask image) r c = true /\
         getitem2 (as_masked image) r c = None) /\
      (all_masked lane = false ->
         item2 (nd2_mask image) r c = false /\
         ofeq (getitem2 (as_masked image) r c)
              (Some (fsum (unmasked_samples lane)))).
Proof.
  pose proof (normalize_axis_lt _ _ Hax) as Hlt.
  unfold collapse, np_ma_sum. rewrite Hmeta. simpl.
  rewrite Hax. simpl. unfold reduce, lanes, paired, filled. simpl.
  rewrite Hshape. destruct (shape3 (nd3_data band)) as [[n0 n1] n2].
  destruct ax as [|[|[|ax']]]; try lia; simpl;
    (do 2 eexists; split; [reflexivity|]; split; [reflexivity|];
     intros r c; cbv zeta; unfold getitem2; simpl).
  - apply (lane_sum_reading (fun k => item3 (nd3_mask band) k c r)
                            (fun k => item3 (nd3_data band) k c r)).
  - apply (lane_sum_reading (fun k => item3 (nd3_mask band) c k r)
                            (fun k => item3 (nd3_data band) c k r)).
  - apply (lane_sum_reading (fun k => item3 (nd3_mask band) c r k)
                            (fun k => item3 (nd3_data band) c r k)).
Qed.

(** The same for the collapse by mean: the mean of the unmasked samples,
    and the masked constant where there is none. *)
Lemma collapse_mean_excludes_masked :
  exists samples mean_image,
    lanes ax (paired band) = Some samples /\
    collapse_mean wcs_celestial data band = Some mean_image /\
    forall r c,
      let lane := item2 samples c r in
      (all_masked lane = true ->
         getitem2 (as_masked mean_image) r c = None) /\
      (all_masked lane = false ->
         ofeq (getitem2 (as_masked mean_image) r c)
              (Some (fdiv (fsum (unmasked_samples lane))
                          (Fin (Qnat (length (unmasked_samples lane))))))).
Proof.
  pose proof (normalize_axis_lt _ _ Hax) as Hlt.
  unfold collapse_mean, np_ma_mean. rewrite Hmeta. simpl.
  rewrite Hax. simpl. unfold reduce, lanes, paired, filled. simpl.
  rewrite Hshape. destruct (shape3 (nd3_data band)) as [[n0 n1] n2].
  destruct ax as [|[|[|ax']]]; try lia; simpl;
    (do 2 eexists; split; [reflexivity|]; split; [reflexivity|];
     intros r c; cbv zeta; unfold getitem2; simpl).
  - apply (lane_mean_reading (fun k => item3 (nd3_mask band) k c r)
                             (fun k => item3 (nd3_data band) k c r)).
  - apply (lane_mean_reading (fun k => item3 (nd3_mask band) c k r)
                             (fun k => item3 (nd3_data band) c k r)).
  - apply (lane_mean_reading (fun k => item3 (nd3_mask band) c r k)
                             (fun k => item3 (nd3_data band) c r k)).
Qed.

(** ** C9 *)


End CollapseProperties.

(** ** Spectral Subsetter: the sub-cubes *)

Lemma lookup_map_seq {A : Type} (f : nat -> A) (n i : nat) (x : A) :
  map f (seq 0 n) !! i = Some x <-> (i < n)%nat /\ x = f i.
Proof.
  rewrite list_lookup_fmap. split.
  - destruct (seq 0 n !! i) as [j|] eqn:E; [|discriminate].
    apply lookup_seq in E as [-> Hi]. simpl. intros [= <-]. split; [exact Hi | reflexivity].
  - intros [Hi ->]. rewrite lookup_seq_lt by exact Hi. reflexivity.
Qed.

Lemma find_app_last {A : Type} (f : A -> bool) (l : list A) (x : A) :
  Forall (fun y => f y = false) l -> f x = true -> find f (l ++ [x]) = Some x.
Proof.
  intros Hl Hx. induction Hl as [|y l Hy Hl IH]; simpl.
  - rewrite Hx. reflexivity.
  - rewrite Hy. exact IH.
Qed.

Lemma subset_label_inj (i j : nat) : subset_label_of i = subset_label_of j -> i = j.
Proof.
  unfold subset_label_of. intros H. apply String.app_inj in H.
  apply pretty_nat_inj in H. exact H.
Qed.

Lemma numbered_apply_roi (roi : XRangeROI) (subsets : Subsets) :
  numbered subsets -> numbered (apply_roi roi subsets).
Proof.
  unfold numbered, apply_roi. intros H.
  rewrite map_app, length_app, H. simpl.
  rewrite seq_app, map_app. simpl. rewrite Nat.add_1_r. reflexivity.
Qed.

Lemma find_subset_apply_roi (roi : XRangeROI) (subsets : Subsets) :
  numbered subsets ->
  find_subset (subset_label_of (S (length subsets))) (apply_roi roi subsets)
  = Some roi.
Proof.
  intros H. unfold find_subset, apply_roi.
  rewrite Nat.add_1_r.
  rewrite find_app_last; [reflexivity | | apply String.eqb_refl].
  apply Forall_forall. intros [l r] Hin. simpl.
  apply String.eqb_neq. intros ->.
  assert (Hl : subset_label_of (S (length subsets)) ∈ map fst subsets).
  { apply list_elem_of_fmap. exists (subset_label_of (S (length subsets)), r).
    split; [reflexivity | exact Hin]. }
  rewrite H in Hl. apply list_elem_of_fmap in Hl as (j & Hj & Hin').
  apply subset_label_inj in Hj. subst j.
  apply list_elem_of_In, in_seq in Hin'. lia.
Qed.

Lemma bandpass_loop_spec (cube : SpectralCube) (bounds : list (list Q))
    (rois : list XRangeROI) :
  Forall2 (fun l roi => XRangeROI_of l = Some roi) bounds rois ->
  forall subsets acc, numbered subsets ->
  exists subsets',
    bandpass_loop cube
      (zip (map subset_label_of (seq (S (length subsets)) (length bounds))) bounds)
      subsets acc
    = Some (subsets', acc ++ map (subset_object cube) rois).
Proof.
  induction 1 as [|l roi bounds rois Hl _ IH]; intros subsets acc Hnum; simpl.
  - eexists. rewrite app_nil_r. reflexivity.
  - rewrite Hl. simpl. unfold get_subset_object.
    rewrite find_subset_apply_roi by exact Hnum. simpl.
    destruct (IH (apply_roi roi subsets) (acc ++ [subset_object cube roi])
                 (numbered_apply_roi roi subsets Hnum)) as [s' Hs'].
    replace (length (apply_roi roi subsets)) with (S (length subsets)) in Hs'
      by (unfold apply_roi; rewrite length_app; simpl; lia).
    exists s'. rewrite Hs'. rewrite <- app_assoc. reflexivity.
Qed.


Section SubCubes.

Variable cube : SpectralCube.
Variable n : nat.
Variables lo hi : Q.
Hypothesis Hn : (1 <= n)%nat.
Hypothesis Hmin : np_min (value (wavelength cube)) = Some lo.
Hypothesis Hmax : np_max (value (wavelength cube)) = Some hi.

Local Abbreviation in_um := (microns (q_unit (wavelength cube))).
Local Abbreviation es := (computed_edge lo hi n).
Local Abbreviation roi_at :=
  (fun i => mkXRangeROI (in_um (es i)) (in_um (es (S i)))).

Lemma es_edge (i : nat) : (i <= n)%nat -> es i == edge_at lo hi n i.
Proof using Hn.
  intros Hi. destruct (linspace_lookup lo hi n i) as (v & Hv & Hev); [lia | lia |].
  unfold computed_edge. rewrite (nth_lookup_Some _ _ _ _ Hv). exact Hev.
Qed.

Lemma es_lookup (i : nat) :
  (i <= n)%nat -> linspace lo hi (n + 1) !! i = Some (es i).
Proof using Hn.
  intros Hi. destruct (linspace_lookup lo hi n i) as (v & Hv & _); [lia | lia |].
  unfold computed_edge. rewrite (nth_lookup_Some _ _ _ _ Hv). exact Hv.
Qed.

Lemma subset_bounds_shape :
  subset_bounds (wavelength cube) n
  = Some (map (fun i => [in_um (es i); in_um (es (S i))]) (seq 0 n)).
Proof using Hn Hmin Hmax.
  rewrite (subset_bounds_eq _ _ _ _ Hn Hmin Hmax). f_equal.
  apply map_ext_in. intros i Hi. apply in_seq in Hi.
  rewrite (take2_drop _ _ (es i) (es (S i))); [reflexivity | |];
    apply es_lookup; lia.
Qed.

Lemma bandpasses_shape :
  bandpasses cube n []
  = Some (map (fun i => subset_object cube (roi_at i)) (seq 0 n)).
Proof using Hn Hmin Hmax.
  unfold bandpasses. rewrite subset_bounds_shape. simpl.
  destruct (bandpass_loop_spec cube
              (map (fun i => [in_um (es i); in_um (es (S i))]) (seq 0 n))
              (map roi_at (seq 0 n))) with (subsets := @nil (string * XRangeROI))
              (acc := @nil NDDataArray3) as [s' Hs'].
  - apply Forall2_fmap, Forall_Forall2_diag, Forall_forall. intros i _. reflexivity.
  - reflexivity.
  - rewrite length_map, length_seq in Hs'. simpl in Hs'.
    unfold subset_labels. rewrite Hs'. simpl. rewrite map_map. reflexivity.
Qed.

Lemma selected_subset_object (roi : XRangeROI) (k : nat) (x : Q) :
  to_value u.um (wavelength cube) !! k = Some x ->
  selected (subset_object cube roi) k <-> roi_min roi <= x /\ x <= roi_max roi.
Proof using Type.
  intros Hk. unfold selected, subset_object. simpl. unfold selects. rewrite Hk.
  unfold to_mask. split.
  - intros H. specialize (H 0%nat 0%nat). apply negb_false_iff in H.
    apply andb_true_iff in H as [H1 H2].
    split; apply Qle_bool_iff; assumption.
  - intros [H1 H2] _ _. apply negb_false_iff, andb_true_iff.
    split; apply Qle_bool_iff; assumption.
Qed.

Lemma sample_in_range (k : nat) (x : Q) :
  to_value u.um (wavelength cube) !! k = Some x ->
  exists w, x = in_um w /\ lo <= w /\ w <= hi.
Proof using Hmin Hmax.
  unfold to_value, to. simpl. rewrite list_lookup_fmap.
  destruct (value (wavelength cube) !! k) as [w|] eqn:Hw; [|discriminate].
  simpl. intros [= <-]. exists w. split; [reflexivity|].
  pose proof (np_min_le _ _ Hmin) as Hl. pose proof (np_max_ge _ _ Hmax) as Hh.
  rewrite Forall_lookup in Hl, Hh. split; [exact (Hl _ _ Hw) | exact (Hh _ _ Hw)].
Qed.

(** ** C5 *)


End SubCubes.

(** ** Mask combination and masked spectrum extraction *)

(** The positions of a plane, row by row. *)
Lemma flat_map_pairs {A : Type} (f : nat -> nat -> A) (rows cols : list nat) :
  flat_map (fun i => map (fun j => f i j) cols) rows
  = map (fun p => f (fst p) (snd p))
        (flat_map (fun i => map (pair i) cols) rows).
Proof.
  induction rows as [|i rows IH]; simpl; [reflexivity|].
  rewrite map_app, map_map, IH. reflexivity.
Qed.

Lemma nansum_filled {K : Type} (m : K -> bool) (d : K -> double) (ks : list K) :
  (forall k, isnan (d k) = true -> m k = true) ->
  feq (nansum (map (fun k => if m k then NaN else d k) ks))
      (fsum (unmasked_samples (map (fun k => (m k, d k)) ks))).
Proof.
  intros Hnan. unfold nansum, unmasked_samples.
  induction ks as [|k ks IH]; simpl.
  - apply Qeq_refl.
  - destruct (m k) eqn:E; simpl.
    + eapply feq_trans; [apply fadd_0_l | exact IH].
    + destruct (isnan (d k)) eqn:En.
      * rewrite (Hnan k En) in E. discriminate.
      * apply fadd_feq; [apply feq_refl | exact IH].
Qed.

Lemma count_filled {K : Type} (m : K -> bool) (d : K -> double) (ks : list K) :
  (forall k, isnan (d k) = true -> m k = true) ->
  count_true (map (fun k => negb (isnan (if m k then NaN else d k))) ks)
  = length (unmasked_samples (map (fun k => (m k, d k)) ks)).
Proof.
  intros Hnan. unfold unmasked_samples. rewrite length_map.
  induction ks as [|k ks IH]; simpl; [reflexivity|].
  destruct (m k) eqn:E; simpl; [exact IH|].
  destruct (isnan (d k)) eqn:En.
  - rewrite (Hnan k En) in E. discriminate.
  - simpl. rewrite IH. reflexivity.
Qed.

(** With no valid sample the NaN-ignoring sum is a zero. *)
Lemma nansum_all_masked {K : Type} (m : K -> bool) (d : K -> double) (ks : list K) :
  unmasked_samples (map (fun k => (m k, d k)) ks) = [] ->
  exists q, nansum (map (fun k => if m k then NaN else d k) ks) = Fin q /\ q == 0.
Proof.
  unfold nansum, unmasked_samples. induction ks as [|k ks IH]; simpl.
  - intros _. exists 0. split; reflexivity.
  - destruct (m k) eqn:E; simpl; [|discriminate].
    intros H. destruct (IH H) as (q & -> & Hq). simpl.
    exists (0 + q). split; [reflexivity|]. rewrite Hq. reflexivity.
Qed.

Lemma Qnat_eq_bool_0 (c : nat) : Qeq_bool (Qnat c) 0 = (c =? 0)%nat.
Proof. destruct c; reflexivity. Qed.

Lemma sgn_Qnat (c : nat) : sgn (Qnat c) = if (c =? 0)%nat then 0%Z else 1%Z.
Proof. destruct c; reflexivity. Qed.

Lemma sgn_Qnat_div (a c : nat) :
  (0 < c)%nat -> sgn (Qnat a / Qnat c) = sgn (Qnat a).
Proof.
  intros Hc. destruct c as [|c]; [lia|]. destruct a as [|a]; reflexivity.
Qed.

Lemma sgn_0 (q : Q) : q == 0 -> sgn q = 0%Z.
Proof. intros H. rewrite (sgn_Qeq _ _ H). reflexivity. Qed.

(** Scaling the sum by [count_max / count] is scaling the mean by
    [count_max]. *)
Lemma scaled_sum_is_scaled_mean (s : double) (cmax c : nat) :
  (0 < c)%nat ->
  feq (fmul s (fdiv (Fin (Qnat cmax)) (Fin (Qnat c))))
      (fmul (fdiv s (Fin (Qnat c))) (Fin (Qnat cmax))).
Proof.
  intros Hc.
  assert (Hz : Qeq_bool (Qnat c) 0 = false).
  { rewrite Qnat_eq_bool_0. apply Nat.eqb_neq. lia. }
  assert (Hq : ~ Qnat c == 0) by (pose proof (Qnat_pos c Hc); lra).
  assert (Hs : sgn (Qnat c) = 1%Z) by (apply sgn_pos, Qnat_pos, Hc).
  destruct s as [a| | |]; unfold fmul, fdiv; rewrite ?Hz.
  - unfold feq. field. exact Hq.
  - unfold fsign. rewrite Hs, (sgn_Qnat_div _ _ Hc). apply feq_refl.
  - unfold fsign. rewrite Hs, (sgn_Qnat_div _ _ Hc). apply feq_refl.
  - exact I.
Qed.

(** A zero times [count_max / 0] is NaN, whatever [count_max] is. *)
Lemma zero_times_ratio_is_nan (q : Q) (cmax : nat) :
  q == 0 -> fmul (Fin q) (fdiv (Fin (Qnat cmax)) (Fin (Qnat 0))) = NaN.
Proof.
  intros Hq. unfold fdiv. rewrite Qnat_eq_bool_0, sgn_Qnat. simpl.
  destruct (cmax =? 0)%nat; simpl; [reflexivity|].
  rewrite (sgn_0 q Hq). reflexivity.
Qed.

Lemma same_shape_refl (s : nat * nat * nat) : same_shape s s = true.
Proof. unfold same_shape. apply bool_decide_eq_true_2. reflexivity. Qed.

Lemma bitfield_flagged (b : array3 Z) (i j k : nat) :
  item3 (bitfield_to_boolean_mask b) i j k = negb (item3 b i j k =? 0)%Z.
Proof.
  unfold bitfield_to_boolean_mask. simpl.
  change (Z.lnot 0) with (-1)%Z. rewrite Z.land_m1_r. reflexivity.
Qed.

Lemma lookup_reduce_01 {A B : Type} (f : list A -> B) (a : array3 A) (k : nat) :
  (k < snd (shape3 a))%nat -> reduce_01 f a !! k = Some (f (plane a k)).
Proof.
  unfold reduce_01. destruct (shape3 a) as [[n0 n1] n2]. simpl. intros Hk.
  rewrite list_lookup_fmap, lookup_seq_lt by exact Hk. reflexivity.
Qed.

Lemma length_reduce_01 {A B : Type} (f : list A -> B) (a : array3 A) :
  length (reduce_01 f a) = snd (shape3 a).
Proof.
  unfold reduce_01. destruct (shape3 a) as [[n0 n1] n2]. simpl.
  rewrite length_map, length_seq. reflexivity.
Qed.

Lemma plane_positions {A : Type} (a : array3 A) (k : nat) :
  plane a k = map (fun p => item3 a (fst p) (snd p) k) (positions (shape3 a)).
Proof.
  unfold plane, positions. destruct (shape3 a) as [[n0 n1] n2].
  apply flat_map_pairs.
Qed.

Lemma fmul_feq_l (x x' y : double) : feq x x' -> feq (fmul x y) (fmul x' y).
Proof.
  destruct x as [a| | |], x' as [a'| | |], y as [b| | |];
    simpl; auto; try contradiction; intros H;
    try (rewrite (sgn_Qeq _ _ H)); try apply feq_refl.
  rewrite H. reflexivity.
Qed.

Lemma extract_masked_spectrum_run (h0 : Heap) (s : NDDataRef) (d0 : array3 double) :
  h0 !! ref_data s = Some d0 ->
  shape3 (ref_mask s) = shape3 d0 ->
  (0 < snd (shape3 d0))%nat ->
  let new := mkArray3 (shape3 d0)
               (fun i j k => if item3 (ref_mask s) i j k then NaN
                             else item3 d0 i j k) in
  let cnt := reduce_01 count_true (map3d negb (np_isnan new)) in
  extract_masked_spectrum s h0
  = Some (mkCell s (mkView (ref_data s) (swapaxes_1_0 (ref_mask s)))
                 (ref_data s) cnt
                 (zip_with fmul (reduce_01 nansum new)
                    (map (fun c => fdiv (Fin (Qnat (max_list cnt))) (Fin (Qnat c)))
                         cnt)),
          <[ref_data s := new]> h0).
Proof.
  intros Hd0 Hsh Hn2 new cnt.
  unfold extract_masked_spectrum, bind, load, store, raise_or, ret.
  rewrite Hd0. unfold setitem_where. rewrite Hsh, same_shape_refl.
  cbv beta iota. rewrite Hd0. cbv beta iota. rewrite lookup_insert_eq.
  cbv beta iota. rewrite lookup_insert_eq. cbv beta iota. fold new. fold cnt.
  assert (Hc : np_max_nat cnt = Some (max_list cnt)).
  { pose proof (length_reduce_01 count_true (map3d negb (np_isnan new))) as Hlen.
    fold cnt in Hlen. simpl in Hlen.
    destruct cnt; [simpl in Hlen; lia | reflexivity]. }
  rewrite Hc. reflexivity.
Qed.

Section SpectrumCellProperties.

Variable h : Heap.
Variable ss : NDDataRef.
Variable dq : DQArray.
Variable d : array3 double.
Hypothesis Hd : h !! ref_data ss = Some d.
Hypothesis Hdq : shape3 (dq_data dq) = shape3 d.
Hypothesis Hdqm : shape3 (dq_mask dq) = shape3 d.

(** The combined mask, item by item. *)
Local Abbreviation combined :=
  (mkArray3 (shape3 (dq_data dq))
     (fun i j k =>
        item3 (bitfield_to_boolean_mask (astype_int (dq_data dq))) i j k
        || item3 (dq_mask dq) i j k
        || item3 (np_isnan d) i j k)).

Lemma combine_masks_run :
  combine_masks ss dq h = Some (mkNDRef (ref_data ss) combined, h).
Proof using Hd Hdq Hdqm.
  unfold combine_masks, bind, load, raise_or, ret. rewrite Hd.
  unfold np_or, astype_int. simpl. rewrite Hdqm, <- Hdq, same_shape_refl. simpl.
  rewrite same_shape_refl. reflexivity.
Qed.

(** ** C4 *)

(** C4. The mask the cell assigns to the sub-cube is, item by item, the
    logical OR of the mask derived from the data-quality bit field, the
    mask the subset already had and the NaN test of the data; the step
    leaves the heap as it was, so the data buffer of the sub-cube (every
    item of it) is the one it was before, and the sub-cube still refers
    to it. *)
Theorem combine_masks_changes_only_mask :
  exists ss',
    combine_masks ss dq h = Some (ss', h) /\
    ref_data ss' = ref_data ss /\
    h !! ref_data ss' = Some d /\
    shape3 (ref_mask ss') = shape3 d /\
    forall i j k,
      item3 (ref_mask ss') i j k
      = item3 (bitfield_to_boolean_mask (astype_int (dq_data dq))) i j k
        || item3 (dq_mask dq) i j k
        || item3 (np_isnan d) i j k.
Proof using Hd Hdq Hdqm.
  eexists. split; [apply combine_masks_run|]. simpl.
  split; [reflexivity|]. split; [exact Hd|]. split; [exact Hdq|].
  intros i j k. reflexivity.
Qed.

(** ** C10 *)

(** C10. On a sub-cube with at least one wavelength slice the cell
    returns, and for every slice the reported flux is the sum of the
    fluxes of the valid spaxels (those the combined mask leaves unmasked)
    times [count_max / count], where [count] is the number of valid
    spaxels of the slice and [count_max] the largest such number over all
    slices; with at least one valid spaxel this is the mean over the
    valid spaxels times [count_max], and with none it is NaN. *)
Theorem masked_spectrum_flux_scales_mean :
  (0 < snd (shape3 d))%nat ->
  exists cell h' count_max,
    spectrum_cell ss dq h = Some (cell, h') /\
    (forall i j k,
       item3 (ref_mask (source_spectrum cell)) i j k
       = item3 (bitfield_to_boolean_mask (astype_int (dq_data dq))) i j k
         || item3 (dq_mask dq) i j k
         || item3 (np_isnan d) i j k) /\
    length (masked_spectrum_flux cell) = snd (shape3 d) /\
    np_max_nat (count cell) = Some count_max /\
    forall k, (k < snd (shape3 d))%nat ->
      let valid := valid_fluxes (ref_mask (source_spectrum cell)) d k in
      count cell !! k = Some (length valid) /\
      exists v,
        masked_spectrum_flux cell !! k = Some v /\
        feq v (fmul (fsum valid)
                    (fdiv (Fin (Qnat count_max)) (Fin (Qnat (length valid))))) /\
        ((0 < length valid)%nat ->
           feq v (fmul (fdiv (fsum valid) (Fin (Qnat (length valid))))
                       (Fin (Qnat count_max)))) /\
        (length valid = 0%nat -> v = NaN).
Proof using Hd Hdq Hdqm.
  intros Hn2. unfold spectrum_cell, bind. rewrite combine_masks_run.
  cbv beta iota.
  match goal with
  | |- context [extract_masked_spectrum ?s h] =>
      rewrite (extract_masked_spectrum_run h s d Hd Hdq Hn2)
  end.
  cbv zeta. set (m := mkArray3 (shape3 (dq_data dq)) _).
  set (new := mkArray3 (shape3 d) _).
  set (cnt := reduce_01 count_true (map3d negb (np_isnan new))).
  assert (Hlen : length cnt = snd (shape3 d)).
  { subst cnt. rewrite length_reduce_01. reflexivity. }
  assert (Hnan : forall p : nat * nat, forall k,
            isnan (item3 d (fst p) (snd p) k) = true ->
            item3 m (fst p) (snd p) k = true).
  { intros p k Hp. subst m. simpl. rewrite Hp. apply orb_true_r. }
  assert (Hcnt : forall k, (k < snd (shape3 d))%nat ->
            cnt !! k = Some (length (valid_fluxes m d k))).
  { intros k Hk. subst cnt. rewrite lookup_reduce_01 by exact Hk. f_equal.
    unfold valid_fluxes. rewrite !plane_positions. simpl.
    apply (count_filled (fun p => item3 m (fst p) (snd p) k)
                        (fun p => item3 d (fst p) (snd p) k)).
    intros p. apply Hnan. }
  clearbody cnt.
  assert (Hmx : np_max_nat cnt = Some (max_list cnt)).
  { destruct cnt; [simpl in Hlen; lia | reflexivity]. }
  eexists _, _, (max_list cnt). split; [reflexivity|]. simpl.
  split; [intros i j k; reflexivity|].
  split.
  { rewrite length_zip_with, length_reduce_01, length_map, Hlen. simpl. lia. }
  split; [exact Hmx|].
  intros k Hk. cbv zeta. split; [apply Hcnt; exact Hk|].
  rewrite lookup_zip_with, lookup_reduce_01 by exact Hk. simpl.
  rewrite list_lookup_fmap, (Hcnt k Hk). simpl.
  eexists. split; [reflexivity|].
  assert (Hsum : feq (nansum (plane new k)) (fsum (valid_fluxes m d k))).
  { unfold valid_fluxes. rewrite !plane_positions. simpl.
    apply (nansum_filled (fun p => item3 m (fst p) (snd p) k)
                         (fun p => item3 d (fst p) (snd p) k)).
    intros p. apply Hnan. }
  split; [apply fmul_feq_l; exact Hsum|].
  split.
  - intros Hpos. eapply feq_trans; [apply fmul_feq_l; exact Hsum|].
    apply scaled_sum_is_scaled_mean. exact Hpos.
  - intros H0. rewrite H0.
    destruct (nansum_all_masked (fun p => item3 m (fst p) (snd p) k)
                                (fun p => item3 d (fst p) (snd p) k)
                                (positions (shape3 d))) as (q & Hq & Hq0).
    + apply length_zero_iff_nil. rewrite <- H0. unfold valid_fluxes.
      rewrite plane_positions. reflexivity.
    + assert (Hnew : nansum (plane new k) = Fin q).
      { rewrite plane_positions. exact Hq. }
      rewrite Hnew. apply zero_times_ratio_is_nan. exact Hq0.
Qed.


End SpectrumCellProperties.

(** ** Centre of light *)

Lemma fadd_Fin_inv (x y : double) (s : Q) :
  fadd x y = Fin s -> exists a b, x = Fin a /\ y = Fin b /\ s = a + b.
Proof.
  destruct x as [a| | |], y as [b| | |]; simpl; try discriminate.
  intros [= <-]. exists a, b. repeat split.
Qed.

(** A finite sum has finite terms only. *)
Lemma fsum_Fin_inv (l : list double) (s : Q) :
  fsum l = Fin s -> Forall (fun x => exists q, x = Fin q) l.
Proof.
  revert s. induction l as [|x l IH]; intros s H; [constructor|].
  simpl in H. apply fadd_Fin_inv in H as (a & b & -> & Hb & _).
  constructor; [exists a; reflexivity | exact (IH b Hb)].
Qed.

Lemma fsum_map_Fin {K : Type} (F : K -> double) (g : K -> Q) (ks : list K) :
  Forall (fun k => feq (F k) (Fin (g k))) ks ->
  feq (fsum (map F ks)) (Fin (Qsum (map g ks))).
Proof.
  induction 1 as [|k ks Hk _ IH]; simpl; [apply Qeq_refl|].
  change (Fin (g k + Qsum (map g ks))) with (fadd (Fin (g k)) (Fin (Qsum (map g ks)))).
  apply fadd_feq; assumption.
Qed.

Lemma Qsum_scale {K : Type} (c : Q) (g : K -> Q) (ks : list K) :
  Qsum (map (fun k => c * g k) ks) == c * Qsum (map g ks).
Proof.
  induction ks as [|k ks IH]; simpl; [ring|]. rewrite IH. ring.
Qed.

Lemma Qsum_ext {K : Type} (f g : K -> Q) (ks : list K) :
  (forall k, f k == g k) -> Qsum (map f ks) == Qsum (map g ks).
Proof.
  intros H. induction ks as [|k ks IH]; simpl; [reflexivity|].
  rewrite IH, H. reflexivity.
Qed.

Lemma feq_Fin_inv (x : double) (q : Q) :
  feq x (Fin q) -> exists a, x = Fin a /\ a == q.
Proof.
  destruct x as [a| | |]; simpl; try contradiction. intros H. exists a. auto.
Qed.

(** The quotient of two finite sums scaled by the same non-zero factor. *)
Lemma fdiv_scaled (num scl num' scl' : double) (c N S : Q) :
  ~ c == 0 -> ~ S == 0 ->
  feq num (Fin N) -> feq scl (Fin S) ->
  feq num' (Fin (c * N)) -> feq scl' (Fin (c * S)) ->
  feq (fdiv num' scl') (fdiv num scl).
Proof.
  intros Hc HS H1 H2 H3 H4.
  eapply feq_trans; [apply fdiv_feq; eassumption|].
  eapply feq_trans; [|apply feq_sym, fdiv_feq; eassumption].
  assert (HcS : ~ c * S == 0).
  { intros H. apply Qmult_integral in H as [H|H]; contradiction. }
  unfold fdiv.
  destruct (Qeq_bool (c * S) 0) eqn:E1; [apply Qeq_bool_iff in E1; contradiction|].
  destruct (Qeq_bool S 0) eqn:E2; [apply Qeq_bool_iff in E2; contradiction|].
  unfold feq. field. split; assumption.
Qed.

Section Centroid.

Variable a : array2 Q.
Variable slice : MaskedArray2.
Variables c s : Q.
Hypothesis Hshape_a : shape2 a = shape2 (data2 slice).
Hypothesis Hshape_m : shape2 (mask2 slice) = shape2 (data2 slice).
Hypothesis Hc : 0 < c.
Hypothesis Htotal : ma_sum_all slice = Some (Fin s).
Hypothesis Hs : 0 < s.

Local Abbreviation pts := (positions2 (shape2 (data2 slice))).
Local Abbreviation msk := (fun p : nat * nat => item2 (mask2 slice) (fst p) (snd p)).
Local Abbreviation dat := (fun p : nat * nat => item2 (data2 slice) (fst p) (snd p)).
Local Abbreviation crd := (fun p : nat * nat => item2 a (fst p) (snd p)).

(** The weight of a position as a rational: zero where it is masked. *)
Local Abbreviation wq :=
  (fun p : nat * nat =>
     match (if msk p then Fin 0 else dat p) with Fin q => q | _ => 0 end).

Lemma weights_finite :
  Forall (fun p => (if msk p then Fin 0 else dat p) = Fin (wq p)) pts.
Proof using Htotal.
  unfold ma_sum_all in Htotal.
  destruct (forallb id (items2 (mask2 slice))); [discriminate|].
  injection Htotal as Hsum. apply fsum_Fin_inv in Hsum.
  unfold items2 in Hsum. simpl in Hsum. rewrite Forall_map in Hsum.
  eapply Forall_impl; [exact Hsum|]. intros p (q & Hq). simpl in Hq.
  rewrite Hq. reflexivity.
Qed.

Lemma not_all_masked : forallb id (items2 (mask2 slice)) = false.
Proof using Htotal.
  unfold ma_sum_all in Htotal.
  destruct (forallb id (items2 (mask2 slice))); [discriminate | reflexivity].
Qed.

Lemma total_weight : s == Qsum (map wq pts).
Proof using Htotal.
  pose proof weights_finite as Hfin.
  unfold ma_sum_all in Htotal.
  destruct (forallb id (items2 (mask2 slice))); [discriminate|].
  injection Htotal as Hsum.
  assert (H : feq (fsum (items2 (filled2 (Fin 0) slice))) (Fin (Qsum (map wq pts)))).
  { unfold items2. simpl. apply fsum_map_Fin.
    eapply Forall_impl; [exact Hfin|]. intros p Hp. simpl in *.
    rewrite Hp. apply Qeq_refl. }
  rewrite Hsum in H. exact H.
Qed.

Lemma average_value :
  exists num,
    np_ma_average a slice = Some (Some (fdiv num (Fin s))) /\
    feq num (Fin (Qsum (map (fun p => crd p * wq p) pts))).
Proof using Htotal Hshape_a.
  pose proof weights_finite as Hfin. pose proof not_all_masked as Hnm.
  unfold np_ma_average. rewrite bool_decide_eq_true_2 by exact Hshape_a.
  rewrite Htotal. unfold ma_sum_all at 1. simpl. rewrite Hnm.
  eexists. split; [reflexivity|].
  unfold items2. simpl. apply fsum_map_Fin.
  eapply Forall_impl; [exact Hfin|]. intros p Hp. simpl in *.
  destruct (item2 (mask2 slice) p.1 p.2).
  - simpl. ring.
  - rewrite Hp. simpl. apply Qeq_refl.
Qed.

Lemma scaled_average_value :
  exists num scl,
    np_ma_average a (scale_weights c slice) = Some (Some (fdiv num scl)) /\
    feq num (Fin (c * Qsum (map (fun p => crd p * wq p) pts))) /\
    feq scl (Fin (c * s)).
Proof using Htotal Hshape_a.
  pose proof weights_finite as Hfin. pose proof not_all_masked as Hnm.
  pose proof total_weight as Hts.
  unfold np_ma_average. simpl. rewrite bool_decide_eq_true_2 by exact Hshape_a.
  unfold ma_sum_all. simpl. rewrite Hnm.
  do 2 eexists. split; [reflexivity|]. split.
  - apply feq_trans with (Fin (Qsum (map (fun p => c * (crd p * wq p)) pts)));
      [|apply (Qsum_scale c (fun p => crd p * wq p))].
    unfold items2. simpl.
    apply (fsum_map_Fin _ (fun p => c * (crd p * wq p))).
    eapply Forall_impl; [exact Hfin|]. intros p Hp. simpl in *.
    destruct (item2 (mask2 slice) p.1 p.2).
    + simpl. ring.
    + rewrite Hp. simpl. ring.
  - apply feq_trans with (Fin (Qsum (map (fun p => c * wq p) pts)));
      [|unfold feq; rewrite Hts; apply (Qsum_scale c wq)].
    unfold items2. simpl.
    apply (fsum_map_Fin _ (fun p => c * wq p)).
    eapply Forall_impl; [exact Hfin|]. intros p Hp. simpl in *.
    destruct (item2 (mask2 slice) p.1 p.2).
    + simpl. ring.
    + rewrite Hp. simpl. apply Qeq_refl.
Qed.

(** Multiplying the weights by [c] leaves the average where it was. *)
Lemma average_scale_invariant :
  exists v v',
    np_ma_average a slice = Some (Some v) /\
    np_ma_average a (scale_weights c slice) = Some (Some v') /\
    feq v' v.
Proof using Htotal Hshape_a Hc Hs.
  destruct average_value as (num & Hv & Hnum).
  destruct scaled_average_value as (num' & scl' & Hv' & Hnum' & Hscl').
  exists (fdiv num (Fin s)), (fdiv num' scl').
  split; [exact Hv|]. split; [exact Hv'|].
  eapply (fdiv_scaled num (Fin s) num' scl' c _ s);
    [lra | lra | exact Hnum | apply Qeq_refl | exact Hnum' | exact Hscl'].
Qed.

End Centroid.

(** The loop applies [centroid] to every slice. *)
Lemma centre_of_light_slices (xx yy : array2 Q) (ma : MaskedArray3)
    (xs ys : list (option double)) (k : nat) :
  centre_of_light xx yy ma = Some (xs, ys) ->
  (k < snd (shape3 (data3 ma)))%nat ->
  exists xbar ybar,
    xs !! k = Some xbar /\ ys !! k = Some ybar /\
    centroid xx yy (wl_slice ma k) = Some (xbar, ybar).
Proof.
  unfold centre_of_light. intros H Hk.
  destruct (mapM _ _) as [coords|] eqn:E; [|discriminate].
  injection H as <- <-. apply mapM_Some in E.
  destruct (Forall2_lookup_l _ _ _ k k E) as ([xbar ybar] & Hc & Hk').
  { apply lookup_seq_lt. exact Hk. }
  exists xbar, ybar. rewrite !list_lookup_fmap, Hc. simpl.
  split; [reflexivity|]. split; [reflexivity|]. exact Hk'.
Qed.

(** ** C6 *)


(** ** Per-pixel spectral slope *)

Lemma setitem_Some {A : Type} (i : nat) (v : A) (a a' : list A) :
  setitem i v a = Some a' -> (i < length a)%nat /\ a' = <[i := v]> a.
Proof.
  unfold setitem. destruct (i <? length a)%nat eqn:E; [|discriminate].
  intros [= <-]. apply Nat.ltb_lt in E. split; [exact E | reflexivity].
Qed.

Lemma setitem_is_Some {A : Type} (i : nat) (v : A) (a : list A) :
  (i < length a)%nat -> setitem i v a = Some (<[i := v]> a).
Proof.
  intros H. unfold setitem. apply Nat.ltb_lt in H. rewrite H. reflexivity.
Qed.

Lemma length_select_same {A : Type} (index : list bool) (a : list A) :
  length index = length a -> length (select index a) = count_nonzero index.
Proof.
  unfold count_nonzero. revert a.
  induction index as [|b index IH]; intros [|x a] Hlen; simpl in *;
    try reflexivity; try discriminate.
  injection Hlen as Hlen. destruct b; simpl; rewrite (IH a Hlen); reflexivity.
Qed.

Lemma lstsq_is_Some (X : list (Q * Q)) (y : list double) :
  length X = length y -> exists beta, lstsq X y = Some beta.
Proof.
  intros H. unfold lstsq. apply Nat.eqb_eq in H. rewrite H. simpl.
  destruct (finite_values y); [|eexists; reflexivity].
  destruct (negb _); [eexists; reflexivity|].
  destruct (Qeq_bool _ 0); eexists; reflexivity.
Qed.

Section SlopeLoop.

Variable wavelength : Quantity.

Local Abbreviation hmask := (fun st => mask1 (hotspot_distances st)).

(** What the loop does to the two arrays: it touches the entries of the
    spaxels it visits that have a valid sample, and nothing else. *)
Lemma slope_loop_spec (rows : list MaskedArray1) :
  forall i st st',
    slope_loop wavelength i rows st = Some st' ->
    length (betas st') = length (betas st) /\
    length (hmask st') = length (hmask st) /\
    data1 (hotspot_distances st') = data1 (hotspot_distances st) /\
    (forall j, (j < i \/ i + length rows <= j)%nat ->
       betas st' !! j = betas st !! j /\ hmask st' !! j = hmask st !! j) /\
    (forall j pxl, rows !! j = Some pxl ->
       if forallb id (mask1 pxl) then
         betas st' !! (i + j)%nat = betas st !! (i + j)%nat /\
         hmask st' !! (i + j)%nat = hmask st !! (i + j)%nat
       else
         (exists beta, fit_pixel wavelength pxl = Some beta /\
                       betas st' !! (i + j)%nat = Some beta) /\
         hmask st' !! (i + j)%nat = Some false).
Proof.
  induction rows as [|pxl rest IH]; intros i st st' Hrun; simpl in Hrun.
  - injection Hrun as <-. repeat split; try reflexivity.
    intros j p Hj. rewrite lookup_nil in Hj. discriminate.
  - destruct (forallb id (mask1 pxl)) eqn:Hall; simpl in Hrun.
    + destruct (IH _ _ _ Hrun) as (Hl & Hlm & Hd & Hframe & Hrows).
      split; [exact Hl|]. split; [exact Hlm|]. split; [exact Hd|]. split.
      * intros j Hj. apply Hframe. simpl in Hj. lia.
      * intros [|j] p Hj; simpl in Hj.
        -- injection Hj as <-. rewrite Hall, Nat.add_0_r. apply Hframe. lia.
        -- specialize (Hrows j p Hj).
           replace (i + S j)%nat with (S i + j)%nat by lia. exact Hrows.
    + destruct (fit_pixel wavelength pxl) as [beta|] eqn:Hfit; [|discriminate].
      simpl in Hrun.
      destruct (setitem i beta (betas st)) as [betas'|] eqn:Hb; [|discriminate].
      simpl in Hrun.
      destruct (setitem i false (hmask st)) as [mask'|] eqn:Hm; [|discriminate].
      simpl in Hrun.
      apply setitem_Some in Hb as [Hib ->]. apply setitem_Some in Hm as [Him ->].
      destruct (IH _ _ _ Hrun) as (Hl & Hlm & Hd & Hframe & Hrows). simpl in *.
      split; [rewrite Hl, length_insert; reflexivity|].
      split; [rewrite Hlm, length_insert; reflexivity|].
      split; [exact Hd|]. split.
      * intros j Hj. destruct (Hframe j) as [H1 H2]; [lia|].
        rewrite H1, H2, !list_lookup_insert_ne by lia. split; reflexivity.
      * intros [|j] p Hj; simpl in Hj.
        -- injection Hj as <-. rewrite Hall, Nat.add_0_r.
           destruct (Hframe i) as [H1 H2]; [lia|]. rewrite H1, H2.
           rewrite !list_lookup_insert_eq by assumption.
           split; [exists beta; split; [exact Hfit | reflexivity] | reflexivity].
        -- specialize (Hrows j p Hj).
           replace (i + S j)%nat with (S (i + j))%nat by lia.
           change (S i + j)%nat with (S (i + j)) in Hrows.
           destruct (forallb id (mask1 p)); [|exact Hrows].
           destruct Hrows as [H1 H2].
           rewrite H1, H2, !list_lookup_insert_ne by lia. split; reflexivity.
Qed.

(** The loop runs to its end when every fit is defined and the two
    arrays are long enough. *)
Lemma slope_loop_is_Some (rows : list MaskedArray1) :
  Forall (fun pxl => exists beta, fit_pixel wavelength pxl = Some beta) rows ->
  forall i st,
    (i + length rows <= length (betas st))%nat ->
    (i + length rows <= length (hmask st))%nat ->
    exists st', slope_loop wavelength i rows st = Some st'.
Proof.
  induction 1 as [|pxl rest [beta Hfit] _ IH]; intros i st Hb Hm; simpl in *.
  - eexists. reflexivity.
  - destruct (forallb id (mask1 pxl)); simpl.
    + apply IH; lia.
    + rewrite Hfit. simpl. rewrite !setitem_is_Some by lia. simpl.
      apply IH; simpl; rewrite length_insert; lia.
Qed.

End SlopeLoop.

Lemma length_long_wavelengths (wavelength : Quantity) :
  length (long_wavelengths wavelength) = length (value wavelength).
Proof. unfold long_wavelengths. apply length_map. Qed.

Lemma offsets_AA_is_Some (wavelength : Quantity) :
  count_nonzero (long_wavelengths wavelength) <> 0%nat ->
  exists x, offsets_AA wavelength = Some x /\
            length x = count_nonzero (long_wavelengths wavelength).
Proof.
  intros Hc. unfold offsets_AA. simpl.
  pose proof (length_select_same (long_wavelengths wavelength) (value wavelength)
                (length_long_wavelengths wavelength)) as Hlen.
  destruct (select (long_wavelengths wavelength) (value wavelength)) as [|w0 ws] eqn:E.
  - simpl in Hlen. congruence.
  - simpl. eexists. split; [reflexivity|].
    unfold to_value, to. simpl. rewrite !length_map. simpl in Hlen. exact Hlen.
Qed.

Lemma fit_pixel_is_Some (wavelength : Quantity) (pxl : MaskedArray1) :
  count_nonzero (long_wavelengths wavelength) <> 0%nat ->
  length (data1 pxl) = count_nonzero (long_wavelengths wavelength) ->
  exists beta, fit_pixel wavelength pxl = Some beta.
Proof.
  intros Hc Hlen. unfold fit_pixel.
  destruct (offsets_AA_is_Some wavelength Hc) as (x & -> & Hx). simpl.
  apply lstsq_is_Some. unfold vander2. rewrite length_map. congruence.
Qed.

Lemma forallb_id_false (l : list bool) :
  forallb id l = false <-> exists k, l !! k = Some false.
Proof.
  induction l as [|b l IH]; simpl.
  - split; [discriminate | intros [k Hk]; rewrite lookup_nil in Hk; discriminate].
  - destruct b; simpl.
    + rewrite IH. split.
      * intros [k Hk]. exists (S k). exact Hk.
      * intros [[|k] Hk]; simpl in Hk; [discriminate | exists k; exact Hk].
    + split; [intros _; exists 0%nat; reflexivity | reflexivity].
Qed.

Lemma length_spaxel {A : Type} (a : array3 A) (p : nat * nat) :
  length (spaxel a p) = snd (shape3 a).
Proof. unfold spaxel. rewrite length_map, length_seq. reflexivity. Qed.

Lemma positions_positions2 (s : nat * nat * nat) :
  positions s = positions2 (fst s).
Proof. destruct s as [[n0 n1] n2]. reflexivity. Qed.

(** ** C8 *)

(** C8. On a cube whose spectral axis matches its data, with at least one
    long wavelength and a distance image of the spatial shape, the slope
    cell returns, with one row of coefficients and one distance entry per
    spaxel.  A spaxel whose samples in the sub-band are all masked keeps
    the coefficients [nan, nan] it was initialised with and its distance
    entry stays masked; a spaxel with a valid sample gets the
    coefficients of its fit and its distance entry is unmasked.  So a
    spaxel is fitted exactly when it has at least one valid sample. *)
Theorem fully_masked_pixels_are_excluded
    (wavelength : Quantity) (source_spectrum_ma : MaskedArray3)
    (distance_from_hotspot : array2 double) :
  length (value wavelength) = snd (shape3 (data3 source_spectrum_ma)) ->
  count_nonzero (long_wavelengths wavelength) <> 0%nat ->
  shape2 distance_from_hotspot = fst (shape3 (data3 source_spectrum_ma)) ->
  exists rows st,
    extracted_spectrum_per_pixel source_spectrum_ma (long_wavelengths wavelength)
      = Some rows /\
    slope_fit wavelength source_spectrum_ma distance_from_hotspot = Some st /\
    length (betas st) = length rows /\
    length (mask1 (hotspot_distances st)) = length rows /\
    forall i pxl, rows !! i = Some pxl ->
      (forallb id (mask1 pxl) = true ->
         betas st !! i = Some [NaN; NaN] /\
         mask1 (hotspot_distances st) !! i = Some true) /\
      (forallb id (mask1 pxl) = false ->
         (exists beta, fit_pixel wavelength pxl = Some beta /\
                       betas st !! i = Some beta) /\
         mask1 (hotspot_distances st) !! i = Some false) /\
      (mask1 (hotspot_distances st) !! i = Some false <->
         exists k, mask1 pxl !! k = Some false).
Proof.
  intros Hwl Hc Hdist.
  unfold slope_fit, extracted_spectrum_per_pixel.
  destruct (count_nonzero (long_wavelengths wavelength) =? 0)%nat eqn:E;
    [apply Nat.eqb_eq in E; contradiction|]. simpl.
  set (rows := map _ (positions _)).
  set (st0 := mkSlopeFit _ _).
  assert (Hrows_len : length rows = length (items2 distance_from_hotspot)).
  { subst rows. unfold items2. rewrite !length_map, Hdist, positions_positions2.
    reflexivity. }
  destruct (slope_loop_is_Some wavelength rows) with (i := 0%nat) (st := st0)
    as [st Hst].
  - subst rows. apply Forall_map, Forall_forall. intros p _. simpl.
    apply fit_pixel_is_Some; [exact Hc|]. simpl.
    apply length_select_same.
    rewrite length_long_wavelengths, length_spaxel. exact Hwl.
  - subst st0. simpl. rewrite length_replicate. lia.
  - subst st0. simpl. rewrite length_replicate. lia.
  - exists rows, st. split; [reflexivity|]. split; [exact Hst|].
    destruct (slope_loop_spec wavelength rows _ _ _ Hst)
      as (Hl & Hlm & Hd & Hframe & Hrows).
    assert (Hml : length (mask1 (hotspot_distances st)) = length rows).
    { rewrite Hlm. subst st0. simpl. rewrite length_replicate. lia. }
    split; [rewrite Hl; subst st0; simpl; apply length_replicate|].
    split; [exact Hml|].
    intros i pxl Hi. specialize (Hrows i pxl Hi).
    change (0 + i)%nat with i in Hrows.
    assert (Hlt : (i < length rows)%nat) by (eapply lookup_lt_Some; exact Hi).
    assert (Hinit : betas st0 !! i = Some [NaN; NaN] /\
                    mask1 (hotspot_distances st0) !! i = Some true).
    { subst st0. simpl. split; apply lookup_replicate_2; lia. }
    destruct Hinit as [Hb0 Hm0].
    destruct (forallb id (mask1 pxl)) eqn:Hall.
    + destruct Hrows as [H1 H2]. rewrite H1, H2, Hb0, Hm0.
      split; [intros _; split; reflexivity|]. split; [discriminate|].
      split; [discriminate|].
      intros Hex. apply forallb_id_false in Hex. congruence.
    + destruct Hrows as [H1 H2]. rewrite H2.
      split; [discriminate|]. split; [intros _; split; [exact H1 | reflexivity]|].
      split; [intros _; apply forallb_id_false; exact Hall | reflexivity].
Qed.

(** ** The least-squares line through exact data *)

Section LeastSquares.

Variables a b : Q.

Local Abbreviation line := (fun x : Q => a + b * x).
Local Abbreviation Sx := (fun xs : list Q => Qsum xs).
Local Abbreviation Sxx := (fun xs : list Q => Qsum (map (fun x => x * x) xs)).

Lemma finite_values_line (xs : list Q) :
  finite_values (map (fun x => Fin (line x)) xs) = Some (map line xs).
Proof.
  unfold finite_values. induction xs as [|x xs IH]; simpl; [reflexivity|].
  rewrite IH. reflexivity.
Qed.

Lemma vander_sums (xs : list Q) :
  Qsum (map (fun r => fst r * fst r) (vander2 xs)) == Sxx xs /\
  Qsum (map (fun r => fst r * snd r) (vander2 xs)) == Sx xs /\
  Qsum (map (fun r => snd r * snd r) (vander2 xs)) == Qnat (length xs) /\
  Qsum (zip_with (fun r t => fst r * t) (vander2 xs) (map line xs))
    == a * Sx xs + b * Sxx xs /\
  Qsum (zip_with (fun r t => snd r * t) (vander2 xs) (map line xs))
    == a * Qnat (length xs) + b * Sx xs.
Proof.
  induction xs as [|x xs (H1 & H2 & H3 & H4 & H5)].
  - simpl. repeat split; try reflexivity; try rewrite Qnat_0; ring.
  - cbn [vander2 map zip_with Qsum foldr length fst snd].
    fold (vander2 xs). fold (Qsum (map (fun r => fst r * fst r) (vander2 xs))).
    unfold Qsum in *. cbn [foldr]. rewrite Qnat_S.
    repeat split.
    + rewrite H1. reflexivity.
    + rewrite H2. ring.
    + rewrite H3. ring.
    + rewrite H4. ring.
    + rewrite H5. ring.
Qed.

End LeastSquares.

Lemma Qsq_nonneg (q : Q) : 0 <= q * q.
Proof.
  destruct (Qlt_le_dec q 0) as [H|H].
  - assert (E : q * q == (- q) * (- q)) by ring. rewrite E.
    apply Qmult_le_0_compat; lra.
  - apply Qmult_le_0_compat; assumption.
Qed.

Lemma Qsq_pos (q : Q) : ~ q == 0 -> 0 < q * q.
Proof.
  intros Hq. destruct (Qlt_le_dec q 0) as [H|H].
  - assert (E : q * q == (- q) * (- q)) by ring. rewrite E.
    apply Qmult_lt_0_compat; lra.
  - apply Qmult_lt_0_compat; lra.
Qed.

(** The determinant of the normal equations, [n Sxx - Sx^2]. *)
Lemma sq_deviation (x : Q) (t : list Q) :
  Qsum (map (fun y => (x - y) * (x - y)) t)
  == Qnat (length t) * (x * x) - 2 * x * Qsum t + Qsum (map (fun y => y * y) t).
Proof.
  induction t as [|y t IH].
  - cbn [map length]. unfold Qsum. cbn [foldr]. rewrite Qnat_0. ring.
  - cbn [map length]. unfold Qsum in *. cbn [foldr]. rewrite IH, Qnat_S. ring.
Qed.

Lemma sq_deviation_nonneg (x : Q) (t : list Q) :
  0 <= Qsum (map (fun y => (x - y) * (x - y)) t).
Proof.
  induction t as [|y t IH]; [apply Qle_refl|].
  cbn [map]. unfold Qsum in *. cbn [foldr].
  pose proof (Qsq_nonneg (x - y)). lra.
Qed.

Lemma sq_deviation_pos (x : Q) (t : list Q) :
  Exists (fun y => ~ y == x) t ->
  0 < Qsum (map (fun y => (x - y) * (x - y)) t).
Proof.
  induction 1 as [y t Hy|y t _ IH]; cbn [map]; unfold Qsum in *; cbn [foldr].
  - pose proof (sq_deviation_nonneg x t) as Hn. unfold Qsum in Hn.
    assert (0 < (x - y) * (x - y)) by (apply Qsq_pos; lra). lra.
  - pose proof (Qsq_nonneg (x - y)). lra.
Qed.

Lemma det_cons (x : Q) (t : list Q) :
  Qnat (length (x :: t)) * Qsum (map (fun y => y * y) (x :: t))
    - Qsum (x :: t) * Qsum (x :: t)
  == (Qnat (length t) * Qsum (map (fun y => y * y) t) - Qsum t * Qsum t)
     + Qsum (map (fun y => (x - y) * (x - y)) t).
Proof.
  rewrite sq_deviation. cbn [map length]. unfold Qsum. cbn [foldr].
  rewrite Qnat_S. ring.
Qed.

Lemma det_nonneg (xs : list Q) :
  0 <= Qnat (length xs) * Qsum (map (fun y => y * y) xs) - Qsum xs * Qsum xs.
Proof.
  induction xs as [|x t IH].
  - cbn [map length]. unfold Qsum. cbn [foldr]. rewrite Qnat_0. lra.
  - rewrite det_cons. pose proof (sq_deviation_nonneg x t). lra.
Qed.

Lemma all_equal_or_not (x : Q) (t : list Q) :
  Forall (fun y => y == x) t \/ Exists (fun y => ~ y == x) t.
Proof.
  induction t as [|y t [IH|IH]].
  - left. constructor.
  - destruct (Qeq_dec y x) as [E|E].
    + left. constructor; assumption.
    + right. constructor. exact E.
  - right. apply Exists_cons_tl. exact IH.
Qed.

(** Two distinct abscissas make the determinant positive. *)
Lemma det_pos (xs : list Q) (i j : nat) (xi xj : Q) :
  xs !! i = Some xi -> xs !! j = Some xj -> ~ xi == xj ->
  0 < Qnat (length xs) * Qsum (map (fun y => y * y) xs) - Qsum xs * Qsum xs.
Proof.
  intros Hi Hj Hne. destruct xs as [|x t]; [rewrite lookup_nil in Hi; discriminate|].
  rewrite det_cons. pose proof (det_nonneg t) as Hd.
  destruct (all_equal_or_not x t) as [Hall|Hex].
  - exfalso. apply Hne.
    assert (Heq : forall k v, (x :: t) !! k = Some v -> v == x).
    { intros [|k] v Hk; simpl in Hk.
      - injection Hk as <-. reflexivity.
      - rewrite Forall_lookup in Hall. exact (Hall k v Hk). }
    rewrite (Heq i xi Hi), (Heq j xj Hj). reflexivity.
  - pose proof (sq_deviation_pos x t Hex). lra.
Qed.

Lemma finite_values_feq (ys : list double) (qs : list Q) :
  Forall2 (fun y q => feq y (Fin q)) ys qs ->
  exists yq, finite_values ys = Some yq /\ Forall2 Qeq yq qs.
Proof.
  unfold finite_values. induction 1 as [|y q ys qs Hy _ (yq & IH & Hq)]; simpl.
  - exists []. split; [reflexivity | constructor].
  - apply feq_Fin_inv in Hy as (v & -> & Hv). rewrite IH. simpl.
    exists (v :: yq). split; [reflexivity | constructor; assumption].
Qed.

Lemma Qsum_zip_with_compat {R : Type} (f : R -> Q -> Q) (X : list R)
    (yq yq' : list Q) :
  (forall r q q', q == q' -> f r q == f r q') ->
  Forall2 Qeq yq yq' ->
  Qsum (zip_with f X yq) == Qsum (zip_with f X yq').
Proof.
  intros Hf H. revert X. induction H as [|q q' yq yq' Hq _ IH]; intros [|r X];
    simpl; try reflexivity.
  unfold Qsum in *. rewrite (Hf r q q' Hq), (IH X). reflexivity.
Qed.

(** On data that lie on a line over at least two distinct abscissas the
    fit returns the slope and the intercept of the line, in this order. *)
Lemma lstsq_line (a b : Q) (xs : list Q) (ys : list double)
    (i j : nat) (xi xj : Q) :
  Forall2 (fun y x => feq y (Fin (a + b * x))) ys xs ->
  xs !! i = Some xi -> xs !! j = Some xj -> ~ xi == xj ->
  exists slope intercept,
    lstsq (vander2 xs) ys = Some [Fin slope; Fin intercept] /\
    slope == b /\ intercept == a.
Proof.
  intros Hys Hi Hj Hne. pose proof (det_pos xs i j xi xj Hi Hj Hne) as Hdet.
  destruct (vander_sums a b xs) as (H1 & H2 & H3 & H4 & H5).
  assert (Hlen : length ys = length xs) by (eapply Forall2_length; exact Hys).
  destruct (finite_values_feq ys (map (fun x => a + b * x) xs)) as (yq & Hfin & Hyq).
  { apply Forall2_fmap_r. exact Hys. }
  unfold lstsq. unfold vander2 at 1. rewrite length_map, Hlen, Nat.eqb_refl.
  simpl negb. cbv iota. rewrite Hfin. cbv zeta.
  rewrite <- (Qsum_zip_with_compat (fun r t => fst r * t) (vander2 xs) yq _) in H4;
    [|intros r q q' Hq; rewrite Hq; reflexivity | exact Hyq].
  rewrite <- (Qsum_zip_with_compat (fun r t => snd r * t) (vander2 xs) yq _) in H5;
    [|intros r q q' Hq; rewrite Hq; reflexivity | exact Hyq].
  set (Suu := Qsum (map (fun r => fst r * fst r) (vander2 xs))) in *.
  set (Suv := Qsum (map (fun r => fst r * snd r) (vander2 xs))) in *.
  set (Svv := Qsum (map (fun r => snd r * snd r) (vander2 xs))) in *.
  set (Suy := Qsum (zip_with (fun r t => fst r * t) (vander2 xs) yq)) in *.
  set (Svy := Qsum (zip_with (fun r t => snd r * t) (vander2 xs) yq)) in *.
  assert (Hd : Suu * Svv - Suv * Suv
               == Qnat (length xs) * Qsum (map (fun y => y * y) xs)
                  - Qsum xs * Qsum xs).
  { rewrite H1, H2, H3. ring. }
  assert (Hnz : ~ Suu * Svv - Suv * Suv == 0) by (rewrite Hd; lra).
  destruct (Qeq_bool (Suu * Svv - Suv * Suv) 0) eqn:E;
    [apply Qeq_bool_iff in E; contradiction|].
  simpl negb. cbv iota.
  do 2 eexists. split; [reflexivity|].
  assert (Hnz' : ~ Qnat (length xs) * Qsum (map (fun y => y * y) xs)
                   - Qsum xs * Qsum xs == 0) by lra.
  split.
  - rewrite Hd, H2, H3, H4, H5. field. exact Hnz'.
  - rewrite Hd, H1, H2, H4, H5. field. exact Hnz'.
Qed.

Lemma offsets_AA_eq (wavelength : Quantity) (w0 : Q) (ws : list Q) :
  select (long_wavelengths wavelength) (value wavelength) = w0 :: ws ->
  offsets_AA wavelength
  = Some (map (fun w => (w - w0) * u.factor (q_unit wavelength) u.AA) (w0 :: ws)).
Proof.
  intros H. unfold offsets_AA. simpl. rewrite H. simpl.
  unfold to_value, to. simpl. rewrite map_map. reflexivity.
Qed.

(** ** C7 *)


(** ** Composite Model Fitter *)

Section FitterProperties.

Context {V : Type}.
Variables default_temperature default_scale : V.
Variable optimizer : list V -> list V.

(** The fit leaves every fixed parameter as it was: same name, same
    flag, same value; a free parameter keeps its name and stays free. *)
Lemma put_free_keeps_fixed (params : list (FitParameter V)) :
  forall vals,
    Forall2 (fun par par' =>
               p_name par' = p_name par /\ p_fixed par' = p_fixed par /\
               (p_fixed par = true -> p_value par' = p_value par))
            params (fst (put_free vals params)).
Proof.
  induction params as [|par rest IH]; intros vals; simpl; [constructor|].
  destruct (p_fixed par) eqn:Hfix.
  - specialize (IH vals). destruct (put_free vals rest) as [rest' vals'].
    simpl in *. constructor; [|exact IH]. rewrite Hfix. auto.
  - destruct vals as [|v vals0]; simpl.
    + apply Forall_Forall2_diag, Forall_forall. intros x _.
      split; [reflexivity|]. split; [reflexivity|]. auto.
    + specialize (IH vals0). destruct (put_free vals0 rest) as [rest' vals'].
      simpl in *. constructor; [|exact IH]. simpl. rewrite Hfix.
      split; [reflexivity|]. split; [reflexivity|]. discriminate.
Qed.

Lemma calculate_fit_keeps_fixed (plugin : Plugin V) :
  Forall2 (fun comp comp' =>
             c_label comp' = c_label comp /\ c_model comp' = c_model comp /\
             Forall2 (fun par par' =>
                        p_name par' = p_name par /\ p_fixed par' = p_fixed par /\
                        (p_fixed par = true -> p_value par' = p_value par))
                     (c_parameters comp) (c_parameters comp'))
          plugin (calculate_fit optimizer plugin).
Proof.
  unfold calculate_fit. generalize (optimizer (free_values plugin)).
  induction plugin as [|comp rest IH]; intros vals; simpl; [constructor|].
  pose proof (put_free_keeps_fixed (c_parameters comp) vals) as Hp.
  destruct (put_free vals (c_parameters comp)) as [params vals'].
  constructor; [|apply IH]. simpl. auto.
Qed.

(** ** C3 *)

(** C3. Run on a plugin without components, the configuration cell
    creates the three components BB0, BB1, BB2, each with its temperature
    marked fixed and only its scale free, holding the initial
    temperatures and scales; the free parameters handed to the optimizer
    are the three scales; and whatever the optimizer returns, the
    temperatures of the three components of the fit result are the
    initial temperatures themselves, still marked fixed, while the scales
    are the values the optimizer returned. *)
Theorem fit_varies_scales_only (T0 T1 T2 s0 s1 s2 : V) :
  exists plugin,
    configure default_temperature default_scale [T0; T1; T2] [s0; s1; s2] []
      = Some plugin /\
    map c_label plugin = ["BB0"; "BB1"; "BB2"] /\
    map (fun comp => map (fun par => (p_name par, p_fixed par))
                         (c_parameters comp)) plugin
      = replicate 3 [("temperature", true); ("scale", false)] /\
    map (fun comp => p_value <$> parameter_of "temperature" comp) plugin
      = [Some T0; Some T1; Some T2] /\
    free_values plugin = [s0; s1; s2] /\
    let result := calculate_fit optimizer plugin in
    map c_label result = ["BB0"; "BB1"; "BB2"] /\
    map (fun comp => p_value <$> parameter_of "temperature" comp) result
      = [Some T0; Some T1; Some T2] /\
    map (fun comp => p_fixed <$> parameter_of "temperature" comp) result
      = [Some true; Some true; Some true] /\
    map (fun comp => p_fixed <$> parameter_of "scale" comp) result
      = [Some false; Some false; Some false] /\
    forall v0 v1 v2 rest,
      optimizer [s0; s1; s2] = v0 :: v1 :: v2 :: rest ->
      map (fun comp => p_value <$> parameter_of "scale" comp) result
        = [Some v0; Some v1; Some v2].
Proof.
  eexists. split; [vm_compute; reflexivity|].
  split; [reflexivity|]. split; [reflexivity|]. split; [reflexivity|].
  split; [reflexivity|]. cbv zeta. unfold calculate_fit.
  change (free_values _) with [s0; s1; s2].
  destruct (optimizer [s0; s1; s2]) as [|v0 [|v1 [|v2 rest]]];
    (repeat split; try reflexivity);
    intros w0 w1 w2 r Hw; try discriminate Hw.
  injection Hw as -> -> -> _. reflexivity.
Qed.

End FitterProperties.

(** ** Concrete runs *)

Lemma subsetter_partitions_axis_example :
  exists bounds,
    subset_bounds example.wavelength 2 = Some bounds /\ length bounds = 2%nat.
Proof.
  destruct (subsetter_partitions_axis example.wavelength 2 1 3)
    as (bounds & H1 & H2 & _).
  - lia.
  - reflexivity.
  - reflexivity.
  - intros H. discriminate H.
  - exists bounds. split; assumption.
Defined.



Lemma collapse_excludes_masked_example :
  exists image,
    collapse example.wcs_celestial example.cube example.band = Some image /\
    getitem2 (as_masked image) 0 0 = None.
Proof.
  destruct (collapse_excludes_masked example.wcs_celestial example.cube
              example.band 2 2)
    as (samples & image & Hs & Hi & H).
  - reflexivity.
  - reflexivity.
  - reflexivity.
  - exists image. split; [exact Hi|].
    injection Hs as <-. destruct (H 0%nat 0%nat) as [Hall _].
    apply Hall. reflexivity.
Defined.


Lemma combine_masks_changes_only_mask_example :
  exists ss',
    combine_masks example.source_spectrum example.mask_nddata example.heap
      = Some (ss', example.heap) /\
    example.heap !! ref_data ss' = Some example.flux.
Proof.
  destruct (combine_masks_changes_only_mask example.heap
              example.source_spectrum example.mask_nddata example.flux)
    as (ss' & H1 & _ & H2 & _).
  - reflexivity.
  - reflexivity.
  - reflexivity.
  - exists ss'. split; assumption.
Defined.

Lemma masked_spectrum_flux_scales_mean_example :
  exists cell h',
    spectrum_cell example.source_spectrum example.mask_nddata example.heap
      = Some (cell, h') /\
    length (masked_spectrum_flux cell) = 3%nat.
Proof.
  destruct (masked_spectrum_flux_scales_mean example.heap
              example.source_spectrum example.mask_nddata example.flux)
    as (cell & h' & cmax & H1 & _ & H2 & _).
  - reflexivity.
  - reflexivity.
  - reflexivity.
  - simpl. lia.
  - exists cell, h'. split; assumption.
Defined.




Lemma fully_masked_pixels_are_excluded_example :
  exists rows st,
    extracted_spectrum_per_pixel (mkMasked3 example.flux example.mask)
      (long_wavelengths example.long_axis) = Some rows /\
    slope_fit example.long_axis (mkMasked3 example.flux example.mask)
      example.distance_from_hotspot = Some st /\
    betas st !! 0%nat = Some [NaN; NaN].
Proof.
  destruct (fully_masked_pixels_are_excluded example.long_axis
              (mkMasked3 example.flux example.mask)
              example.distance_from_hotspot)
    as (rows & st & H1 & H2 & _ & _ & H).
  - reflexivity.
  - discriminate.
  - reflexivity.
  - exists rows, st. split; [exact H1|]. split; [exact H2|].
    injection H1 as <-.
    destruct (H 0%nat (mkMasked1 [Fin 8; Fin 9] [true; true])) as (Hm & _).
    + reflexivity.
    + apply Hm. reflexivity.
Defined.

(** ** The embedding on small inputs, checked by evaluation *)

Example linspace_1_3 : Forall2 Qeq (linspace 1 3 3) [1; 2; 3].
Proof. vm_compute. repeat constructor. Qed.

Example subset_bounds_two_bands :
  exists bounds,
    subset_bounds example.wavelength 2 = Some bounds /\
    Forall2 (Forall2 Qeq) bounds [[1; 2]; [2; 3]].
Proof. eexists. split; [reflexivity|]. vm_compute. repeat constructor. Qed.

Example collapse_sums_unmasked_samples :
  exists image,
    collapse example.wcs_celestial example.cube example.band = Some image /\
    shape2 (nd2_data image) = (2, 1)%nat /\
    getitem2 (as_masked image) 0 0 = None /\
    ofeq (getitem2 (as_masked image) 1 0) (Some (Fin 5)) /\
    sky_of_item image 1 0 = (20, 11).
Proof.
  eexists. split; [reflexivity|]. split; [reflexivity|].
  split; [reflexivity|]. split; reflexivity.
Qed.

Example collapse_mean_averages_unmasked_samples :
  exists image,
    collapse_mean example.wcs_celestial example.cube example.band = Some image /\
    getitem2 (as_masked image) 0 0 = None /\
    ofeq (getitem2 (as_masked image) 1 0) (Some (Fin (5 # 2))).
Proof.
  eexists. split; [reflexivity|]. split; reflexivity.
Qed.

Example spectrum_cell_run :
  exists cell h',
    spectrum_cell example.source_spectrum example.mask_nddata example.heap
      = Some (cell, h') /\
    count cell = [0; 0; 1]%nat /\
    Forall2 feq (masked_spectrum_flux cell) [NaN; NaN; Fin 3].
Proof.
  do 2 eexists. split; [vm_compute; reflexivity|]. split; [reflexivity|].
  vm_compute. repeat constructor.
Qed.

Example centroid_of_slice :
  exists xbar ybar,
    centroid example.xx example.yy example.slice = Some (Some xbar, Some ybar) /\
    feq xbar (Fin 1) /\ feq ybar (Fin 0).
Proof.
  do 2 eexists. split; [reflexivity|]. split; reflexivity.
Qed.

Example slope_fit_run :
  exists st,
    slope_fit example.long_axis (mkMasked3 example.flux example.mask)
      example.distance_from_hotspot = Some st /\
    Forall2 (Forall2 feq) (betas st) [[NaN; NaN]; [Fin (1 # 10000); Fin 2]] /\
    mask1 (hotspot_distances st) = [true; false].
Proof.
  eexists. split; [reflexivity|]. split; [|reflexivity].
  vm_compute. repeat constructor.
Qed.

Example configure_then_fit :
  exists plugin,
    configure 5000 1 [120; 450; 5777] [1; 2; 3] [] = Some plugin /\
    map (fun comp => p_value <$> parameter_of "temperature" comp)
        (calculate_fit (map (Qmult 2)) plugin)
      = [Some 120; Some 450; Some 5777] /\
    map (fun comp => p_value <$> parameter_of "scale" comp)
        (calculate_fit (map (Qmult 2)) plugin)
      = [Some (2 * 1); Some (2 * 2); Some (2 * 3)].
Proof.
  eexists. split; [reflexivity|]. split; reflexivity.
Qed.

(** * Further properties of the cells *)

(** ** The subsetting cell on an application that already has subsets *)

(** In a list of numbered subsets the label of number [j + 1] finds the
    entry at index [j]. *)
Lemma find_numbered_from (s : Subsets) (a j : nat) :
  map fst s = map subset_label_of (seq a (length s)) ->
  (j < length s)%nat ->
  find (fun x => String.eqb (fst x) (subset_label_of (a + j))) s = s !! j.
Proof.
  revert a j. induction s as [|[l r] s IH]; intros a j Hs Hj; simpl in *; [lia|].
  injection Hs as Hl Hs. subst l. destruct j as [|j].
  - rewrite Nat.add_0_r, String.eqb_refl. reflexivity.
  - destruct (String.eqb _ _) eqn:E.
    + apply String.eqb_eq, subset_label_inj in E. lia.
    + replace (a + S j)%nat with (S a + j)%nat by lia.
      apply IH; [exact Hs | lia].
Qed.

Lemma find_subset_numbered (s : Subsets) (j : nat) :
  numbered s -> (j < length s)%nat ->
  find_subset (subset_label_of (S j)) s = snd <$> s !! j.
Proof.
  intros Hs Hj. unfold find_subset.
  change (S j) with (1 + j)%nat.
  rewrite (find_numbered_from s 1 j Hs Hj). reflexivity.
Qed.

(** The loop started at label [j + 1] on the subsets [cur]: the band
    fetched in round [i] is the subset at index [j + i] of the old
    subsets followed by the new ones. *)
Lemma bandpass_loop_by_label (cube : SpectralCube) (bounds : list (list Q))
    (rois : list XRangeROI) :
  Forall2 (fun l roi => XRangeROI_of l = Some roi) bounds rois ->
  forall j cur acc, numbered cur -> (j <= length cur)%nat ->
  exists subsets' bands,
    bandpass_loop cube
      (zip (map subset_label_of (seq (S j) (length bounds))) bounds) cur acc
    = Some (subsets', acc ++ bands) /\
    length bands = length bounds /\
    forall i band, bands !! i = Some band ->
      exists r, (map snd cur ++ rois) !! (j + i)%nat = Some r /\
                band = subset_object cube r.
Proof.
  induction 1 as [|l roi bounds rois Hl _ IH]; intros j cur acc Hnum Hj; simpl.
  - exists cur, []. rewrite app_nil_r. split; [reflexivity|].
    split; [reflexivity|]. intros i band Hb. rewrite lookup_nil in Hb. discriminate.
  - rewrite Hl. simpl. unfold get_subset_object.
    pose proof (numbered_apply_roi roi cur Hnum) as Hnum1.
    assert (Hall : map snd (apply_roi roi cur) ++ rois = map snd cur ++ roi :: rois).
    { unfold apply_roi. rewrite map_app, <- app_assoc. reflexivity. }
    assert (Hlen : length (apply_roi roi cur) = S (length cur)).
    { unfold apply_roi. rewrite length_app. simpl. lia. }
    fold (apply_roi roi cur). set (cur1 := apply_roi roi cur) in *.
    rewrite (find_subset_numbered cur1 j Hnum1) by lia.
    destruct (_ !! j) as [[l0 r0]|] eqn:Ej.
    2:{ apply lookup_ge_None in Ej. lia. }
    simpl.
    destruct (IH (S j) cur1 (acc ++ [subset_object cube r0]) Hnum1)
      as (s' & bands & Hrun & Hbl & Hb); [lia|].
    exists s', (subset_object cube r0 :: bands).
    split; [rewrite Hrun, <- app_assoc; reflexivity|].
    split; [simpl; rewrite Hbl; reflexivity|].
    intros [|i] band Hi; simpl in Hi.
    + injection Hi as <-. exists r0. split; [|reflexivity].
      rewrite Nat.add_0_r, <- Hall.
      rewrite lookup_app_l by (rewrite length_map; lia).
      pose proof (list_lookup_fmap snd cur1 j) as E.
      unfold Subsets in Ej. rewrite Ej in E. exact E.
    + destruct (Hb i band Hi) as (r & Hr & ->). exists r. split; [|reflexivity].
      rewrite <- Hall. replace (j + S i)%nat with (S j + i)%nat by lia. exact Hr.
Qed.

Section BandsOnExistingSubsets.

Variable cube : SpectralCube.
Variable n : nat.
Variables lo hi : Q.
Hypothesis Hn : (1 <= n)%nat.
Hypothesis Hmin : np_min (value (wavelength cube)) = Some lo.
Hypothesis Hmax : np_max (value (wavelength cube)) = Some hi.

Local Abbreviation in_um := (microns (q_unit (wavelength cube))).
Local Abbreviation es := (computed_edge lo hi n).
Local Abbreviation roi_at :=
  (fun i => mkXRangeROI (in_um (es i)) (in_um (es (S i)))).

(** X1. The loop fetches each sub-cube by the label "Subset i+1". Run on
    an application that already holds [k] numbered subsets, the new
    ranges are appended as subsets [k+1 .. k+n], so the first [k]
    sub-cubes returned are those of the old subsets and sub-cube [i >= k]
    is the one of band [i - k]. *)
Theorem bandpasses_on_existing_subsets (subsets0 : Subsets) :
  numbered subsets0 ->
  exists bands,
    bandpasses cube n subsets0 = Some bands /\
    length bands = n /\
    forall i band, bands !! i = Some band ->
      (forall r, map snd subsets0 !! i = Some r -> band = subset_object cube r) /\
      ((length subsets0 <= i)%nat ->
       band = subset_object cube (roi_at (i - length subsets0)%nat)).
Proof using Hn Hmin Hmax.
  intros Hnum. unfold bandpasses.
  rewrite (subset_bounds_shape cube n lo hi Hn Hmin Hmax). simpl.
  destruct (bandpass_loop_by_label cube
              (map (fun i => [in_um (es i); in_um (es (S i))]) (seq 0 n))
              (map roi_at (seq 0 n))) with (j := 0%nat) (cur := subsets0)
              (acc := @nil NDDataArray3) as (s' & bands & Hrun & Hlen & Hb).
  - apply Forall2_fmap, Forall_Forall2_diag, Forall_forall. intros i _. reflexivity.
  - exact Hnum.
  - lia.
  - rewrite length_map, length_seq in Hrun, Hlen. unfold subset_labels.
    rewrite Hrun. simpl. exists bands. split; [reflexivity|]. split; [exact Hlen|].
    intros i band Hi. destruct (Hb i band Hi) as (r & Hr & ->). simpl in Hr.
    split.
    + intros r' Hr'. rewrite (lookup_app_l_Some _ _ _ _ Hr') in Hr.
      injection Hr as <-. reflexivity.
    + intros Hk. rewrite lookup_app_r in Hr by (rewrite length_map; exact Hk).
      rewrite length_map in Hr.
      pose proof (list_lookup_fmap roi_at (seq 0 n) (i - length subsets0)%nat) as E.
      change (map roi_at (seq 0 n)) with (roi_at <$> seq 0 n) in Hr.
      rewrite E in Hr.
      destruct (seq 0 n !! (i - length subsets0)%nat) as [m|] eqn:Em; [|discriminate].
      apply lookup_seq in Em as [-> _]. simpl in Hr. injection Hr as <-. reflexivity.
Qed.


End BandsOnExistingSubsets.

Lemma bandpasses_on_existing_subsets_example :
  exists bands,
    bandpasses example.cube 2 edge_case.existing_subsets = Some bands /\
    bands !! 0%nat = Some (subset_object example.cube (mkXRangeROI 100 200)).
Proof.
  destruct (bandpasses_on_existing_subsets example.cube 2 1 3 ltac:(lia) eq_refl
              eq_refl edge_case.existing_subsets eq_refl)
    as (bands & Hrun & Hlen & Hb).
  exists bands. split; [exact Hrun|].
  destruct bands as [|b0 bands]; [discriminate Hlen|].
  destruct (Hb 0%nat b0 eq_refl) as [H0 _].
  rewrite (H0 (mkXRangeROI 100 200) eq_refl). reflexivity.
Defined.


(** X3. On an application without subsets the subsetting cell fails
    exactly when the spectral axis is empty ([min] of a zero-size array);
    otherwise it returns [n_subsets] sub-cubes, none for [n_subsets = 0]. *)
Theorem bandpasses_raises_iff_empty_axis (cube : SpectralCube) (n : nat) :
  (value (wavelength cube) = [] -> bandpasses cube n [] = None) /\
  (value (wavelength cube) <> [] ->
   exists bands, bandpasses cube n [] = Some bands /\ length bands = n).
Proof.
  split.
  - intros He. unfold bandpasses, subset_bounds, subset_edges. rewrite He. reflexivity.
  - intros Hne. destruct (value (wavelength cube)) as [|x t] eqn:Ev; [congruence|].
    destruct n as [|n].
    + exists []. unfold bandpasses, subset_bounds, subset_edges. rewrite Ev.
      split; reflexivity.
    + rewrite (bandpasses_shape cube (S n) (min_from x t) (max_from x t));
        [| lia | rewrite Ev; reflexivity | rewrite Ev; reflexivity].
      eexists. split; [reflexivity|]. rewrite length_map, length_seq. reflexivity.
Qed.

(** ** The collapse of a band *)

Lemma unmasked_samples_selected {K : Type} (s : K -> bool) (d : K -> double)
    (ks : list K) :
  unmasked_samples (map (fun k => (negb (s k), d k)) ks)
  = map d (List.filter s ks).
Proof.
  unfold unmasked_samples. induction ks as [|k ks IH]; simpl; [reflexivity|].
  destruct (s k); simpl; rewrite IH; reflexivity.
Qed.

Lemma collapse_subset_object {Sky : Type} (wcs_celestial : WCS Sky)
    (cube : SpectralCube) (roi : XRangeROI) (axis : Z) (n0 n1 n2 : nat) :
  meta cube !! "DISPAXIS" = Some axis ->
  normalize_axis axis = Some 2%nat ->
  shape3 (flux cube) = (n0, n1, n2) ->
  exists image,
    collapse wcs_celestial cube (subset_object cube roi) = Some image /\
    shape2 (nd2_data image) = (n1, n0) /\
    forall r c,
      let sel := List.filter (selects cube roi) (seq 0 n2) in
      (sel = [] -> getitem2 (as_masked image) r c = None) /\
      (sel <> [] ->
         ofeq (getitem2 (as_masked image) r c)
              (Some (fsum (map (item3 (flux cube) c r) sel)))).
Proof.
  intros Hmeta Hax Hshape.
  unfold collapse, np_ma_sum. rewrite Hmeta. simpl. rewrite Hax. simpl.
  unfold reduce, lanes, filled, subset_object. simpl. rewrite Hshape. simpl.
  eexists. split; [reflexivity|]. split; [reflexivity|].
  intros r c. set (sel := List.filter (selects cube roi) (seq 0 n2)).
  unfold getitem2. simpl.
  pose proof (lane_sum_reading (fun k => negb (selects cube roi k))
                (item3 (flux cube) c r) (seq 0 n2)) as H.
  pose proof (unmasked_samples_selected (selects cube roi)
                (item3 (flux cube) c r) (seq 0 n2)) as Hu.
  fold sel in Hu. cbv zeta beta in H. rewrite Hu in H.
  destruct H as [Hall Hsome].
  destruct (all_masked
              (map (fun k => (negb (selects cube roi k), item3 (flux cube) c r k))
                   (seq 0 n2))) eqn:E.
  - pose proof E as E'. apply all_masked_no_samples in E'.
    rewrite Hu in E'. apply map_eq_nil in E'.
    split; [intros _; apply (Hall eq_refl) | intros Hne; contradiction].
  - split; [|intros _; apply (Hsome eq_refl)].
    intros He. assert (E' : all_masked
              (map (fun k => (negb (selects cube roi k), item3 (flux cube) c r k))
                   (seq 0 n2)) = true).
    { apply all_masked_no_samples. rewrite Hu, He. reflexivity. }
    congruence.
Qed.

Section CollapsedImages.

Context {Sky : Type}.
Variable wcs_celestial : WCS Sky.
Variable cube : SpectralCube.
Variable n : nat.
Variables lo hi : Q.
Variable axis : Z.
Variables n0 n1 n2 : nat.
Hypothesis Hn : (1 <= n)%nat.
Hypothesis Hmin : np_min (value (wavelength cube)) = Some lo.
Hypothesis Hmax : np_max (value (wavelength cube)) = Some hi.
Hypothesis Hmeta : meta cube !! "DISPAXIS" = Some axis.
Hypothesis Hax : normalize_axis axis = Some 2%nat.
Hypothesis Hshape : shape3 (flux cube) = (n0, n1, n2).

Local Abbreviation in_um := (microns (q_unit (wavelength cube))).
Local Abbreviation es := (computed_edge lo hi n).
Local Abbreviation roi_at :=
  (fun i => mkXRangeROI (in_um (es i)) (in_um (es (S i)))).


End CollapsedImages.


(** X5. On a sub-cube whose mask has the shape of its data, [collapse]
    returns an image exactly when the header of the cube has a DISPAXIS
    entry that names an axis of a three-dimensional array, from -3 to 2;
    without the entry the lookup fails, and with any other value the
    reduction does. *)
Theorem collapse_returns_iff_valid_dispaxis {Sky : Type} (wcs_celestial : WCS Sky)
    (data : SpectralCube) (band : NDDataArray3) :
  shape3 (nd3_mask band) = shape3 (nd3_data band) ->
  is_Some (collapse wcs_celestial data band) <->
  exists axis, meta data !! "DISPAXIS" = Some axis /\ (-3 <= axis < 3)%Z.
Proof.
  intros _. unfold collapse, np_ma_sum.
  destruct (meta data !! "DISPAXIS") as [axis|] eqn:Hm; simpl.
  2:{ split; [intros [x Hx]; discriminate | intros (a & Ha & _); discriminate]. }
  destruct (normalize_axis axis) as [ax|] eqn:Hax; simpl.
  - pose proof (normalize_axis_lt _ _ Hax) as Hlt.
    destruct (lanes_is_Some ax
                (filled (Fin 0) (mkMasked3 (nd3_data band) (nd3_mask band))) Hlt)
      as [l1 Hl1].
    destruct (lanes_is_Some ax (nd3_mask band) Hlt) as [l2 Hl2].
    unfold reduce. rewrite Hl1, Hl2. simpl. split; [|intros _; eexists; reflexivity].
    intros _. exists axis. split; [reflexivity|].
    unfold normalize_axis in Hax.
    destruct ((0 <=? axis)%Z && (axis <? 3)%Z) eqn:E1.
    + apply andb_true_iff in E1 as [? ?]. lia.
    + destruct ((-3 <=? axis)%Z && (axis <? 0)%Z) eqn:E2; [|discriminate].
      apply andb_true_iff in E2 as [? ?]. lia.
  - split; [intros [x Hx]; discriminate|].
    intros (a & [= <-] & Ha). exfalso. unfold normalize_axis in Hax.
    destruct ((0 <=? axis)%Z && (axis <? 3)%Z) eqn:E1; [discriminate|].
    destruct ((-3 <=? axis)%Z && (axis <? 0)%Z) eqn:E2; [discriminate|].
    apply andb_false_iff in E1, E2. lia.
Qed.

Lemma collapse_returns_iff_valid_dispaxis_example :
  ~ is_Some (collapse example.wcs_celestial edge_case.fits_axis_cube example.band).
Proof.
  intros H.
  apply (collapse_returns_iff_valid_dispaxis example.wcs_celestial
           edge_case.fits_axis_cube example.band eq_refl) in H.
  destruct H as (axis & Ha & Hr). vm_compute in Ha. injection Ha as <-. lia.
Defined.

(** Multiplying by [c / c] for a positive count changes nothing. *)
Lemma fmul_ratio_one (s : double) (c : nat) :
  (0 < c)%nat -> feq (fmul s (fdiv (Fin (Qnat c)) (Fin (Qnat c)))) s.
Proof.
  intros Hc.
  assert (Hz : Qeq_bool (Qnat c) 0 = false).
  { rewrite Qnat_eq_bool_0. apply Nat.eqb_neq. lia. }
  assert (Hq : ~ Qnat c == 0) by (pose proof (Qnat_pos c Hc); lra).
  assert (H1 : Qnat c / Qnat c == 1) by (field; exact Hq).
  assert (Hs : sgn (Qnat c / Qnat c) = 1%Z).
  { apply sgn_pos. rewrite H1. reflexivity. }
  destruct s as [a| | |]; unfold fdiv; rewrite Hz; simpl; rewrite ?Hs; simpl;
    try reflexivity.
  rewrite H1. ring.
Qed.

Lemma plane_ext {A : Type} (a b : array3 A) (k : nat) :
  shape3 a = shape3 b ->
  (forall i j, item3 a i j k = item3 b i j k) ->
  plane a k = plane b k.
Proof.
  intros Hs H. unfold plane. rewrite Hs. destruct (shape3 b) as [[n0 n1] n2].
  apply flat_map_ext. intros i. apply map_ext. intros j. apply H.
Qed.

Lemma reduce_01_ext {A B : Type} (f : list A -> B) (a b : array3 A) :
  shape3 a = shape3 b ->
  (forall i j k, item3 a i j k = item3 b i j k) ->
  reduce_01 f a = reduce_01 f b.
Proof.
  intros Hs H. unfold reduce_01. rewrite <- Hs.
  destruct (shape3 a) as [[n0 n1] n2] eqn:E.
  apply map_ext. intros k. f_equal. apply plane_ext; [congruence|].
  intros i j. apply H.
Qed.

Lemma isnan_eq (x : double) : isnan x = true -> x = NaN.
Proof. destruct x; simpl; [discriminate | discriminate | discriminate | reflexivity]. Qed.

(** ** The masked-spectrum cell, slice by slice *)

(** The cell, run on a cube that has a wavelength slice. *)
Lemma spectrum_cell_explicit_at (h : Heap) (ss : NDDataRef) (dq : DQArray)
    (d : array3 double) :
  h !! ref_data ss = Some d ->
  shape3 (dq_data dq) = shape3 d ->
  shape3 (dq_mask dq) = shape3 d ->
  (0 < snd (shape3 d))%nat ->
  let combined :=
    mkArray3 (shape3 (dq_data dq))
      (fun i j k =>
         item3 (bitfield_to_boolean_mask (astype_int (dq_data dq))) i j k
         || item3 (dq_mask dq) i j k
         || item3 (np_isnan d) i j k) in
  let nan_filled :=
    mkArray3 (shape3 d)
      (fun i j k => if item3 combined i j k then NaN else item3 d i j k) in
  let counts := reduce_01 count_true (map3d negb (np_isnan nan_filled)) in
  spectrum_cell ss dq h
  = Some (mkCell (mkNDRef (ref_data ss) combined)
                 (mkView (ref_data ss) (swapaxes_1_0 combined))
                 (ref_data ss) counts
                 (zip_with fmul (reduce_01 nansum nan_filled)
                    (map (fun c => fdiv (Fin (Qnat (max_list counts))) (Fin (Qnat c)))
                         counts)),
          <[ref_data ss := nan_filled]> h).
Proof.
  intros Hd Hdq Hdqm Hn2. cbv zeta. unfold spectrum_cell, bind.
  rewrite (combine_masks_run h ss dq d Hd Hdq Hdqm). cbv beta iota.
  match goal with
  | |- context [extract_masked_spectrum ?s h] =>
      rewrite (extract_masked_spectrum_run h s d Hd Hdq Hn2)
  end.
  reflexivity.
Qed.

Section SpectrumCellSlices.

Variable h : Heap.
Variable ss : NDDataRef.
Variable dq : DQArray.
Variable d : array3 double.
Hypothesis Hd : h !! ref_data ss = Some d.
Hypothesis Hdq : shape3 (dq_data dq) = shape3 d.
Hypothesis Hdqm : shape3 (dq_mask dq) = shape3 d.

Local Abbreviation combined :=
  (mkArray3 (shape3 (dq_data dq))
     (fun i j k =>
        item3 (bitfield_to_boolean_mask (astype_int (dq_data dq))) i j k
        || item3 (dq_mask dq) i j k
        || item3 (np_isnan d) i j k)).
Local Abbreviation nan_filled :=
  (mkArray3 (shape3 d)
     (fun i j k => if item3 combined i j k then NaN else item3 d i j k)).
Local Abbreviation counts :=
  (reduce_01 count_true (map3d negb (np_isnan nan_filled))).

Lemma spectrum_cell_explicit :
  (0 < snd (shape3 d))%nat ->
  spectrum_cell ss dq h
  = Some (mkCell (mkNDRef (ref_data ss) combined)
                 (mkView (ref_data ss) (swapaxes_1_0 combined))
                 (ref_data ss) counts
                 (zip_with fmul (reduce_01 nansum nan_filled)
                    (map (fun c => fdiv (Fin (Qnat (max_list counts))) (Fin (Qnat c)))
                         counts)),
          <[ref_data ss := nan_filled]> h).
Proof using Hd Hdq Hdqm.
  intros Hn2. exact (spectrum_cell_explicit_at h ss dq d Hd Hdq Hdqm Hn2).
Qed.

Lemma combined_covers_nan (p : nat * nat) (k : nat) :
  isnan (item3 d (fst p) (snd p) k) = true ->
  item3 combined (fst p) (snd p) k = true.
Proof using Type.
  intros Hp. simpl. rewrite Hp. apply orb_true_r.
Qed.

Lemma slice_sum (k : nat) :
  feq (nansum (plane nan_filled k)) (fsum (valid_fluxes combined d k)).
Proof using Type.
  unfold valid_fluxes. rewrite !plane_positions. simpl.
  apply (nansum_filled (fun p => item3 combined (fst p) (snd p) k)
                       (fun p => item3 d (fst p) (snd p) k)).
  intros p. apply combined_covers_nan.
Qed.

(** X6. With the buffer in place and the three arrays of one shape, the
    cell fails exactly when the cube has no wavelength slice: [count] is
    then empty and [count.max()] raises. *)
Theorem spectrum_cell_raises_iff_no_slice :
  spectrum_cell ss dq h = None <-> snd (shape3 d) = 0%nat.
Proof using Hd Hdq Hdqm.
  split.
  - intros Hnone. destruct (snd (shape3 d)) as [|n2] eqn:E; [reflexivity|].
    rewrite spectrum_cell_explicit in Hnone by (rewrite E; lia). discriminate.
  - intros H0. unfold spectrum_cell, bind.
    rewrite (combine_masks_run h ss dq d Hd Hdq Hdqm). cbv beta iota.
    unfold extract_masked_spectrum, bind, load, store, raise_or, ret. simpl.
    rewrite Hd. unfold setitem_where. simpl. rewrite Hdq, same_shape_refl.
    cbv beta iota. rewrite Hd. cbv beta iota. rewrite lookup_insert_eq.
    cbv beta iota. rewrite lookup_insert_eq. cbv beta iota.
    unfold reduce_01 at 1. simpl.
    destruct (shape3 d) as [[n0 n1] n2]. simpl in H0. subst n2. reflexivity.
Qed.

(** X7. A slice whose number of valid spaxels is the largest of all
    slices (and is not zero) is reported with the plain sum of its valid
    fluxes: the factor [count.max() / count] is one there. *)
Theorem full_slice_flux_is_plain_sum :
  (0 < snd (shape3 d))%nat ->
  exists cell h' count_max,
    spectrum_cell ss dq h = Some (cell, h') /\
    np_max_nat (count cell) = Some count_max /\
    Forall (fun c => (c <= count_max)%nat) (count cell) /\
    (exists k, count cell !! k = Some count_max) /\
    forall k v,
      count cell !! k = Some count_max -> (0 < count_max)%nat ->
      masked_spectrum_flux cell !! k = Some v ->
      feq v (fsum (valid_fluxes (ref_mask (source_spectrum cell)) d k)).
Proof using Hd Hdq Hdqm.
  intros Hn2. rewrite (spectrum_cell_explicit Hn2).
  set (cnt := counts).
  assert (Hlen : length cnt = snd (shape3 d)).
  { subst cnt. rewrite length_reduce_01. reflexivity. }
  clearbody cnt.
  assert (Hmx : np_max_nat cnt = Some (max_list cnt)).
  { destruct cnt; [simpl in Hlen; lia | reflexivity]. }
  eexists _, _, (max_list cnt). split; [reflexivity|].
  cbn [count masked_spectrum_flux source_spectrum ref_mask].
  split; [exact Hmx|].
  split; [apply Forall_forall; intros c Hc; apply max_list_elem_of_le; exact Hc|].
  split.
  { apply list_elem_of_lookup_1, max_list_elem_of.
    intros He. rewrite He in Hlen. simpl in Hlen. lia. }
  intros k v Hck Hpos Hv.
  assert (Hk : (k < snd (shape3 d))%nat).
  { rewrite <- Hlen. apply lookup_lt_is_Some. eexists. exact Hck. }
  rewrite lookup_zip_with, lookup_reduce_01 in Hv by exact Hk.
  rewrite list_lookup_fmap, Hck in Hv. simpl in Hv. injection Hv as <-.
  eapply feq_trans; [apply fmul_feq_l, slice_sum|].
  apply fmul_ratio_one. exact Hpos.
Qed.

(** X18. The cell run a second time on the same sub-cube and buffer
    finds nothing left to do: the combined mask, the NaN-filled buffer,
    the counts and the reported fluxes are those of the first run. *)
Theorem spectrum_cell_twice :
  (0 < snd (shape3 d))%nat ->
  exists cell h1 cell' h2 buffer buffer',
    spectrum_cell ss dq h = Some (cell, h1) /\
    spectrum_cell ss dq h1 = Some (cell', h2) /\
    count cell' = count cell /\
    masked_spectrum_flux cell' = masked_spectrum_flux cell /\
    (forall i j k, item3 (ref_mask (source_spectrum cell')) i j k
                   = item3 (ref_mask (source_spectrum cell)) i j k) /\
    h1 !! ref_data ss = Some buffer /\ h2 !! ref_data ss = Some buffer' /\
    forall i j k, item3 buffer' i j k = item3 buffer i j k.
Proof using Hd Hdq Hdqm.
  intros Hn2. rewrite (spectrum_cell_explicit Hn2).
  set (new := nan_filled).
  assert (Hd1 : <[ref_data ss := new]> h !! ref_data ss = Some new)
    by apply lookup_insert_eq.
  assert (Hmask : forall i j k,
            item3 (bitfield_to_boolean_mask (astype_int (dq_data dq))) i j k
            || item3 (dq_mask dq) i j k || item3 (np_isnan new) i j k
            = item3 combined i j k).
  { intros i j k. unfold new. simpl.
    destruct (negb _); simpl; [reflexivity|].
    destruct (item3 (dq_mask dq) i j k); simpl; [reflexivity|].
    destruct (item3 d i j k); reflexivity. }
  assert (Hnew : forall i j k,
            (if item3 (bitfield_to_boolean_mask (astype_int (dq_data dq))) i j k
                || item3 (dq_mask dq) i j k || item3 (np_isnan new) i j k
             then NaN else item3 new i j k)
            = item3 new i j k).
  { intros i j k. rewrite Hmask. unfold new. simpl.
    destruct (negb _ || _ || _); reflexivity. }
  pose proof (fun H1 H2 H3 H4 =>
                @spectrum_cell_explicit_at (<[ref_data ss := new]> h) ss dq new
                  H1 H2 H3 H4) as Hrun2.
  specialize (Hrun2 Hd1 Hdq Hdqm Hn2). cbv zeta in Hrun2.
  assert (Hcnt : reduce_01 count_true
                   (map3d negb (np_isnan
                      (mkArray3 (shape3 new)
                         (fun i j k =>
                            if item3 (bitfield_to_boolean_mask (astype_int (dq_data dq))) i j k
                               || item3 (dq_mask dq) i j k || item3 (np_isnan new) i j k
                            then NaN else item3 new i j k))))
                 = counts).
  { apply reduce_01_ext; [reflexivity|]. intros i j k.
    cbn [map3d np_isnan item3]. rewrite Hnew. reflexivity. }
  assert (Hsum : reduce_01 nansum
                   (mkArray3 (shape3 new)
                      (fun i j k =>
                         if item3 (bitfield_to_boolean_mask (astype_int (dq_data dq))) i j k
                            || item3 (dq_mask dq) i j k || item3 (np_isnan new) i j k
                         then NaN else item3 new i j k))
                 = reduce_01 nansum new).
  { apply reduce_01_ext; [reflexivity|]. intros i j k.
    cbn [item3]. apply Hnew. }
  eexists _, (<[ref_data ss := new]> h), _, _, _, _.
  split; [reflexivity|]. split; [exact Hrun2|].
  cbn [count masked_spectrum_flux source_spectrum ref_mask].
  split; [exact Hcnt|].
  split.
  { exact (f_equal2
             (fun a b => zip_with fmul a
                (map (fun c => fdiv (Fin (Qnat (max_list b))) (Fin (Qnat c))) b))
             Hsum Hcnt). }
  split; [intros i j k; apply Hmask|].
  split; [exact Hd1|]. split; [apply lookup_insert_eq|].
  intros i j k. apply Hnew.
Qed.

End SpectrumCellSlices.

Lemma spectrum_cell_twice_example :
  exists cell h1 cell' h2,
    spectrum_cell example.source_spectrum example.mask_nddata example.heap
      = Some (cell, h1) /\
    spectrum_cell example.source_spectrum example.mask_nddata h1
      = Some (cell', h2) /\
    masked_spectrum_flux cell' = masked_spectrum_flux cell.
Proof.
  destruct (spectrum_cell_twice example.heap example.source_spectrum
              example.mask_nddata example.flux)
    as (cell & h1 & cell' & h2 & b & b' & H1 & H2 & _ & H3 & _).
  - reflexivity.
  - reflexivity.
  - reflexivity.
  - simpl. lia.
  - exists cell, h1, cell', h2. repeat split; assumption.
Defined.

Lemma spectrum_cell_raises_iff_no_slice_example :
  spectrum_cell edge_case.empty_spectrum edge_case.empty_dq edge_case.empty_heap
  = None.
Proof.
  apply (spectrum_cell_raises_iff_no_slice edge_case.empty_heap
           edge_case.empty_spectrum edge_case.empty_dq edge_case.empty_flux).
  - reflexivity.
  - reflexivity.
  - reflexivity.
  - reflexivity.
Defined.

Lemma full_slice_flux_is_plain_sum_example :
  exists cell h' count_max,
    spectrum_cell example.source_spectrum example.mask_nddata example.heap
      = Some (cell, h') /\
    np_max_nat (count cell) = Some count_max.
Proof.
  destruct (full_slice_flux_is_plain_sum example.heap example.source_spectrum
              example.mask_nddata example.flux)
    as (cell & h' & cmax & H1 & H2 & _).
  - reflexivity.
  - reflexivity.
  - reflexivity.
  - simpl. lia.
  - exists cell, h', cmax. split; assumption.
Defined.


(** ** The centre of light at the edges *)

Lemma Qsum_le {K : Type} (f g : K -> Q) (ks : list K) :
  Forall (fun k => f k <= g k) ks -> Qsum (map f ks) <= Qsum (map g ks).
Proof.
  induction 1 as [|k ks Hk _ IH]; simpl; [apply Qle_refl|].
  apply Qplus_le_compat; assumption.
Qed.

Section CentroidRange.

Variable a : array2 Q.
Variable slice : MaskedArray2.
Variable s : Q.
Hypothesis Hshape_a : shape2 a = shape2 (data2 slice).
Hypothesis Htotal : ma_sum_all slice = Some (Fin s).

Local Abbreviation pts := (positions2 (shape2 (data2 slice))).
Local Abbreviation msk := (fun p : nat * nat => item2 (mask2 slice) (fst p) (snd p)).
Local Abbreviation dat := (fun p : nat * nat => item2 (data2 slice) (fst p) (snd p)).
Local Abbreviation crd := (fun p : nat * nat => item2 a (fst p) (snd p)).
Local Abbreviation wq :=
  (fun p : nat * nat =>
     match (if msk p then Fin 0 else dat p) with Fin q => q | _ => 0 end).

(** The average is the quotient of two rational sums. *)
Lemma average_is_quotient :
  ~ s == 0 ->
  exists n,
    np_ma_average a slice = Some (Some (Fin (n / s))) /\
    n == Qsum (map (fun p => crd p * wq p) pts).
Proof using Hshape_a Htotal.
  intros Hs. destruct (average_value a slice s Hshape_a Htotal) as (num & Hv & Hnum).
  apply feq_Fin_inv in Hnum as (n & -> & Hn).
  exists n. split; [|exact Hn]. rewrite Hv. unfold fdiv.
  destruct (Qeq_bool s 0) eqn:E; [apply Qeq_bool_iff in E; contradiction|].
  reflexivity.
Qed.

Hypothesis Hs : 0 < s.
Hypothesis Hnonneg : Forall (fun p => msk p = false -> nonnegative (dat p)) pts.

Lemma weights_nonnegative : Forall (fun p => 0 <= wq p) pts.
Proof using Htotal Hnonneg.
  pose proof (weights_finite slice s Htotal) as Hfin.
  rewrite Forall_forall in Hfin, Hnonneg. apply Forall_forall. intros p Hp.
  specialize (Hfin p Hp). specialize (Hnonneg p Hp). simpl in *.
  destruct (item2 (mask2 slice) p.1 p.2); [simpl; lra|].
  specialize (Hnonneg eq_refl).
  destruct (item2 (data2 slice) p.1 p.2); simpl in *;
    try discriminate; try contradiction; exact Hnonneg.
Qed.

(** With weights that are not negative, the average of a grid lies
    between any two bounds of the grid. *)
Lemma average_between (lo hi : Q) :
  Forall (fun p => lo <= crd p /\ crd p <= hi) pts ->
  exists v, np_ma_average a slice = Some (Some (Fin v)) /\ lo <= v /\ v <= hi.
Proof using Hshape_a Htotal Hs Hnonneg.
  intros Hb. destruct average_is_quotient as (n & Hv & Hn); [lra|].
  exists (n / s). split; [exact Hv|].
  pose proof weights_nonnegative as Hw.
  pose proof (total_weight slice s Htotal) as Hts.
  assert (Hlo : lo * s <= n).
  { rewrite Hn, Hts, <- (Qsum_scale lo wq). apply Qsum_le.
    rewrite Forall_forall in Hb, Hw. apply Forall_forall. intros p Hp.
    destruct (Hb p Hp) as [H1 _]. specialize (Hw p Hp).
    apply Qmult_le_compat_r; assumption. }
  assert (Hhi : n <= hi * s).
  { rewrite Hn, Hts, <- (Qsum_scale hi wq). apply Qsum_le.
    rewrite Forall_forall in Hb, Hw. apply Forall_forall. intros p Hp.
    destruct (Hb p Hp) as [_ H2]. specialize (Hw p Hp).
    apply Qmult_le_compat_r; assumption. }
  split.
  - apply Qle_shift_div_l; assumption.
  - apply Qle_shift_div_r; assumption.
Qed.

End CentroidRange.




(** X11. A slice whose valid fluxes are finite and sum to zero gives no
    finite centre of light: each weighted sum is divided by zero, which
    yields an infinity or NaN. *)
Theorem centroid_of_zero_total_weight (xx yy : array2 Q) (wl_slice : MaskedArray2)
    (s : Q) :
  shape2 xx = shape2 (data2 wl_slice) ->
  shape2 yy = shape2 (data2 wl_slice) ->
  ma_sum_all wl_slice = Some (Fin s) ->
  s == 0 ->
  exists x y,
    centroid xx yy wl_slice = Some (Some x, Some y) /\
    (forall q, x <> Fin q) /\ (forall q, y <> Fin q).
Proof.
  intros Hx Hy Ht Hs.
  assert (Hdiv : forall num n, feq num (Fin n) -> forall q, fdiv num (Fin s) <> Fin q).
  { intros num n Hnum q. apply feq_Fin_inv in Hnum as (n' & -> & _). unfold fdiv.
    apply Qeq_bool_iff in Hs. rewrite Hs.
    destruct (sgn n'); discriminate. }
  destruct (average_value xx wl_slice s Hx Ht) as (nx & Ex & Hnx).
  destruct (average_value yy wl_slice s Hy Ht) as (ny & Ey & Hny).
  exists (fdiv nx (Fin s)), (fdiv ny (Fin s)). unfold centroid. rewrite Ex, Ey.
  split; [reflexivity|]. split; [eapply Hdiv; exact Hnx | eapply Hdiv; exact Hny].
Qed.


Lemma centroid_of_zero_total_weight_example :
  exists x y,
    centroid example.xx example.yy edge_case.dark_slice = Some (Some x, Some y) /\
    (forall q, x <> Fin q) /\ (forall q, y <> Fin q).
Proof.
  apply (centroid_of_zero_total_weight example.xx example.yy edge_case.dark_slice
           (0 + (0 + 0))).
  - reflexivity.
  - reflexivity.
  - reflexivity.
  - reflexivity.
Defined.

Lemma centroid_is_Some_iff (xx yy : array2 Q) (wl_slice : MaskedArray2) :
  is_Some (centroid xx yy wl_slice) <->
  shape2 xx = shape2 (data2 wl_slice) /\ shape2 yy = shape2 (data2 wl_slice).
Proof.
  unfold centroid, np_ma_average.
  destruct (bool_decide (shape2 xx = _)) eqn:E1; simpl.
  - apply bool_decide_eq_true in E1.
    destruct (bool_decide (shape2 yy = _)) eqn:E2; simpl.
    + apply bool_decide_eq_true in E2. split; [intros _; split; assumption|].
      intros _. eexists. reflexivity.
    + apply bool_decide_eq_false in E2. split; [intros [x Hx]; discriminate|].
      intros [_ H]. contradiction.
  - apply bool_decide_eq_false in E1. split; [intros [x Hx]; discriminate|].
    intros [H _]. contradiction.
Qed.

(** X12. The loop over the slices fails exactly when there is a slice
    and a coordinate grid does not have the spatial shape of the cube;
    when it returns it gives one abscissa and one ordinate per slice. *)
Theorem centre_of_light_raises_iff_shape_differs (xx yy : array2 Q)
    (source_spectrum_ma : MaskedArray3) :
  let spatial := fst (shape3 (data3 source_spectrum_ma)) in
  let n2 := snd (shape3 (data3 source_spectrum_ma)) in
  (centre_of_light xx yy source_spectrum_ma = None <->
   (0 < n2)%nat /\ ~ (shape2 xx = spatial /\ shape2 yy = spatial)) /\
  (forall xs ys, centre_of_light xx yy source_spectrum_ma = Some (xs, ys) ->
                 length xs = n2 /\ length ys = n2).
Proof.
  intros spatial n2. unfold centre_of_light. fold n2.
  destruct (mapM _ _) as [coords|] eqn:E; simpl.
  - split.
    + split; [discriminate|]. intros [Hpos Hne]. exfalso. apply Hne.
      apply mapM_Some in E.
      destruct (Forall2_lookup_l _ _ _ 0%nat 0%nat E) as (c & _ & Hc).
      { apply lookup_seq_lt. exact Hpos. }
      apply (centroid_is_Some_iff xx yy (wl_slice source_spectrum_ma 0)).
      eexists. exact Hc.
    + intros xs ys [= <- <-]. apply length_mapM in E.
      rewrite length_seq in E. rewrite !length_map. split; congruence.
  - split; [|discriminate]. split; [|reflexivity]. intros _.
    destruct (decide (shape2 xx = spatial /\ shape2 yy = spatial)) as [Hok|Hne].
    + exfalso. assert (Hs : is_Some (mapM
                  (fun k => centroid xx yy (wl_slice source_spectrum_ma k))
                  (seq 0 n2))).
      { apply mapM_is_Some, Forall_forall. intros k _.
        apply centroid_is_Some_iff. exact Hok. }
      rewrite E in Hs. destruct Hs as [x Hx]. discriminate.
    + split; [|exact Hne]. destruct n2; [discriminate E | lia].
Qed.

(** ** The spaxel spectra and their fits *)

Lemma select_map {A B : Type} (f : A -> B) (index : list bool) (a : list A) :
  select index (map f a) = map f (select index a).
Proof.
  revert a. induction index as [|b index IH]; intros [|x a]; simpl;
    try reflexivity.
  destruct b; simpl; rewrite IH; reflexivity.
Qed.

Lemma length_positions (s : nat * nat * nat) :
  length (positions s) = (fst (fst s) * snd (fst s))%nat.
Proof.
  destruct s as [[n0 n1] n2]. unfold positions. simpl.
  generalize 0%nat at 2. induction n0 as [|n0 IH]; intros a; simpl; [reflexivity|].
  rewrite length_app, length_map, length_seq, IH. reflexivity.
Qed.

Lemma count_nonzero_0 (index : list bool) :
  count_nonzero index = 0%nat <-> Forall (fun b => b = false) index.
Proof.
  unfold count_nonzero. induction index as [|b index IH]; simpl.
  - split; [constructor | reflexivity].
  - destruct b; simpl.
    + split; [discriminate | intros H; inversion H; discriminate].
    + rewrite IH. split; [intros H; constructor; [reflexivity | exact H]|].
      intros H. inversion H. assumption.
Qed.



Lemma finite_values_nan (y : list double) (k : nat) :
  y !! k = Some NaN -> finite_values y = None.
Proof.
  unfold finite_values. revert k. induction y as [|v y IH]; intros k Hk.
  - rewrite lookup_nil in Hk. discriminate.
  - destruct k as [|k]; simpl in Hk.
    + injection Hk as ->. reflexivity.
    + specialize (IH k Hk). cbn [mapM]. cbn [mapM] in IH.
      destruct v; try reflexivity. simpl. rewrite IH. reflexivity.
Qed.

(** A spectrum that holds a NaN is fitted with NaN coefficients. *)
Lemma fit_pixel_nan (wavelength : Quantity) (pxl : MaskedArray1) (k : nat) :
  count_nonzero (long_wavelengths wavelength) <> 0%nat ->
  length (data1 pxl) = count_nonzero (long_wavelengths wavelength) ->
  data1 pxl !! k = Some NaN ->
  fit_pixel wavelength pxl = Some [NaN; NaN].
Proof.
  intros Hc Hlen Hk. unfold fit_pixel.
  destruct (offsets_AA_is_Some wavelength Hc) as (x & -> & Hx). simpl.
  unfold lstsq, vander2. rewrite length_map, Hx, <- Hlen, Nat.eqb_refl. simpl.
  rewrite (finite_values_nan _ k Hk). reflexivity.
Qed.

Lemma masked_samples_are_nan (ma : MaskedArray3) (index : list bool)
    (p : nat * nat) (k : nat) :
  shape3 (mask3 ma) = shape3 (data3 ma) ->
  (forall i j k, item3 (mask3 ma) i j k = true -> item3 (data3 ma) i j k = NaN) ->
  select index (spaxel (mask3 ma) p) !! k = Some true ->
  select index (spaxel (data3 ma) p) !! k = Some NaN.
Proof.
  intros Hsh Hnan. unfold spaxel. rewrite Hsh, !select_map.
  change (map ?f ?l) with (f <$> l). rewrite !list_lookup_fmap.
  destruct (select index (seq 0 (snd (shape3 (data3 ma)))) !! k) as [m|];
    [|discriminate].
  simpl. intros [= H]. rewrite (Hnan _ _ _ H). reflexivity.
Qed.

(** X14. The fit reads the data of a spaxel and not its mask.  On a
    masked cube whose data is NaN wherever its mask is set (as the
    masked-spectrum cell leaves it), a spaxel that has a masked sample
    and a valid sample in the sub-band passes the guard of the loop: its
    distance entry is unmasked, and its coefficients are NaN. *)
Theorem partially_masked_spaxel_gets_nan_slope
    (wavelength : Quantity) (source_spectrum_ma : MaskedArray3)
    (distance_from_hotspot : array2 double) :
  length (value wavelength) = snd (shape3 (data3 source_spectrum_ma)) ->
  shape3 (mask3 source_spectrum_ma) = shape3 (data3 source_spectrum_ma) ->
  count_nonzero (long_wavelengths wavelength) <> 0%nat ->
  shape2 distance_from_hotspot = fst (shape3 (data3 source_spectrum_ma)) ->
  (forall i j k, item3 (mask3 source_spectrum_ma) i j k = true ->
                 item3 (data3 source_spectrum_ma) i j k = NaN) ->
  exists rows st,
    extracted_spectrum_per_pixel source_spectrum_ma (long_wavelengths wavelength)
      = Some rows /\
    slope_fit wavelength source_spectrum_ma distance_from_hotspot = Some st /\
    forall i pxl k k', rows !! i = Some pxl ->
      mask1 pxl !! k = Some true -> mask1 pxl !! k' = Some false ->
      betas st !! i = Some [NaN; NaN] /\
      mask1 (hotspot_distances st) !! i = Some false.
Proof.
  intros Hwl Hsh Hc Hdist Hnan.
  unfold slope_fit, extracted_spectrum_per_pixel.
  destruct (count_nonzero (long_wavelengths wavelength) =? 0)%nat eqn:E;
    [apply Nat.eqb_eq in E; contradiction|]. simpl.
  set (rows := map _ (positions _)).
  set (st0 := mkSlopeFit _ _).
  assert (Hrows_len : length rows = length (items2 distance_from_hotspot)).
  { subst rows. unfold items2. rewrite !length_map, Hdist, positions_positions2.
    reflexivity. }
  assert (Hdata_len : Forall (fun pxl => length (data1 pxl)
                       = count_nonzero (long_wavelengths wavelength)) rows).
  { subst rows. apply Forall_map, Forall_forall. intros p _. simpl.
    apply length_select_same.
    rewrite length_long_wavelengths, length_spaxel. exact Hwl. }
  destruct (slope_loop_is_Some wavelength rows) with (i := 0%nat) (st := st0)
    as [st Hst].
  - eapply Forall_impl; [exact Hdata_len|]. intros pxl Hp.
    apply fit_pixel_is_Some; assumption.
  - subst st0. simpl. rewrite length_replicate. lia.
  - subst st0. simpl. rewrite length_replicate. lia.
  - exists rows, st. split; [reflexivity|]. split; [exact Hst|].
    destruct (slope_loop_spec wavelength rows _ _ _ Hst)
      as (_ & _ & _ & _ & Hrows).
    intros i pxl k k' Hi Hk Hk'. specialize (Hrows i pxl Hi).
    change (0 + i)%nat with i in Hrows.
    assert (Hall : forallb id (mask1 pxl) = false).
    { apply forallb_id_false. exists k'. exact Hk'. }
    rewrite Hall in Hrows. destruct Hrows as [(beta & Hfit & Hb) Hm].
    split; [|exact Hm]. rewrite Hb. f_equal.
    assert (Hdk : data1 pxl !! k = Some NaN).
    { subst rows. rewrite list_lookup_fmap in Hi.
      destruct (positions _ !! i) as [p|]; [|discriminate].
      injection Hi as <-.
      apply (masked_samples_are_nan source_spectrum_ma _ p k Hsh Hnan). exact Hk. }
    rewrite Forall_lookup in Hdata_len.
    rewrite (fit_pixel_nan wavelength pxl k Hc (Hdata_len i pxl Hi) Hdk) in Hfit.
    congruence.
Qed.

Lemma partially_masked_spaxel_gets_nan_slope_example :
  exists st,
    slope_fit example.long_axis edge_case.partly_masked_cube
      example.distance_from_hotspot = Some st /\
    betas st !! 1%nat = Some [NaN; NaN] /\
    mask1 (hotspot_distances st) !! 1%nat = Some false.
Proof.
  destruct (partially_masked_spaxel_gets_nan_slope example.long_axis
              edge_case.partly_masked_cube example.distance_from_hotspot)
    as (rows & st & Hrows & Hst & H).
  - reflexivity.
  - reflexivity.
  - vm_compute. lia.
  - reflexivity.
  - intros [|[|i]] [|[|[|j]]] [|[|[|[|k]]]]; simpl;
      try discriminate; reflexivity.
  - exists st. split; [exact Hst|].
    injection Hrows as <-.
    apply (H 1%nat (mkMasked1 [NaN; Fin 3] [true; false]) 0%nat 1%nat);
      reflexivity.
Defined.

(** ** The configuration of the fitter, run again and on other plugins *)

Section ConfigureProperties.

Context {V : Type}.
Variables default_temperature default_scale : V.

(** X15. Running the configuration cell a second time, with other
    values, on the plugin it has configured gives what a first run with
    those values gives: the guard [label not in model_components] keeps
    it from creating the components again, and every value is replaced. *)
Theorem configure_again_replaces_values (T0 T1 T2 s0 s1 s2 T0' T1' T2' s0' s1' s2' : V) :
  exists plugin,
    configure default_temperature default_scale [T0; T1; T2] [s0; s1; s2] []
      = Some plugin /\
    configure default_temperature default_scale [T0'; T1'; T2'] [s0'; s1'; s2']
      plugin
    = configure default_temperature default_scale [T0'; T1'; T2'] [s0'; s1'; s2']
        [].
Proof using Type.
  eexists. split; [vm_compute; reflexivity|]. vm_compute. reflexivity.
Qed.

Lemma has_component_app (label : string) (others plugin : Plugin V) :
  Forall (fun comp => c_label comp <> label) others ->
  has_component label (others ++ plugin) = has_component label plugin.
Proof using Type.
  intros H. unfold has_component. rewrite existsb_app.
  replace (existsb _ others) with false; [reflexivity|].
  symmetry. induction H as [|comp others Hc _ IH]; simpl; [reflexivity|].
  rewrite IH, orb_false_r. apply String.eqb_neq. exact Hc.
Qed.

Lemma set_model_component_app (label parameter : string) (value : V) (fixed : bool)
    (others plugin : Plugin V) :
  Forall (fun comp => c_label comp <> label) others ->
  set_model_component label parameter value fixed (others ++ plugin)
  = app others <$> set_model_component label parameter value fixed plugin.
Proof using Type.
  induction 1 as [|comp others Hc _ IH]; simpl.
  - destruct (set_model_component _ _ _ _ plugin); reflexivity.
  - apply String.eqb_neq in Hc. rewrite Hc, IH.
    destruct (set_model_component _ _ _ _ plugin); reflexivity.
Qed.

Lemma set_row_app (label : string) (params : Row V) (others : Plugin V) :
  Forall (fun comp => c_label comp <> label) others ->
  forall plugin,
    set_row label params (others ++ plugin)
    = app others <$> set_row label params plugin.
Proof using Type.
  intros H. induction params as [|[parameter value] rest IH]; intros plugin; simpl.
  - reflexivity.
  - rewrite set_model_component_app by exact H.
    destruct (set_model_component _ _ _ _ plugin) as [plugin'|]; simpl;
      [apply IH | reflexivity].
Qed.

Lemma configure_loop_app (todo : list (string * string * Row V))
    (others : Plugin V) :
  Forall (fun comp => Forall (fun t => c_label comp <> snd (fst t)) todo) others ->
  forall plugin,
    configure_loop default_temperature default_scale todo (others ++ plugin)
    = app others <$> configure_loop default_temperature default_scale todo plugin.
Proof using Type.
  intros H. induction todo as [|[[model label] params] rest IH]; intros plugin; simpl.
  - reflexivity.
  - assert (Hl : Forall (fun comp => c_label comp <> label) others).
    { eapply Forall_impl; [exact H|]. intros comp Hc. inversion Hc. assumption. }
    assert (Hr : Forall (fun comp => Forall (fun t => c_label comp <> snd (fst t)) rest)
                        others).
    { eapply Forall_impl; [exact H|]. intros comp Hc. inversion Hc. assumption. }
    rewrite has_component_app by exact Hl.
    destruct (has_component label plugin).
    + simpl. rewrite set_row_app by exact Hl.
      destruct (set_row label params plugin) as [p''|]; simpl;
        [apply IH; exact Hr | reflexivity].
    + unfold create_model_component.
      destruct (initial_parameters default_temperature default_scale model)
        as [ps|]; simpl; [|reflexivity].
      rewrite <- app_assoc, set_row_app by exact Hl.
      destruct (set_row label params _) as [p''|]; simpl;
        [apply IH; exact Hr | reflexivity].
Qed.

(** X16. The cell leaves the components of other labels alone: on a
    plugin that starts with components not called BB0, BB1 or BB2, it
    does what it does on the rest of the plugin, and those components
    stay in front, unchanged. *)
Theorem configure_keeps_other_components (temperatures expected_scales : list V)
    (others plugin : Plugin V) :
  Forall (fun comp => c_label comp ∉ component_labels) others ->
  configure default_temperature default_scale temperatures expected_scales
    (others ++ plugin)
  = app others <$> configure default_temperature default_scale temperatures
                     expected_scales plugin.
Proof using Type.
  intros H. unfold configure.
  destruct (fit_params temperatures expected_scales) as [rows|]; [|reflexivity].
  change (configure_loop default_temperature default_scale
            (zip (zip component_models component_labels) rows) (others ++ plugin)
          = app others <$> configure_loop default_temperature default_scale
              (zip (zip component_models component_labels) rows) plugin).
  apply configure_loop_app.
  eapply Forall_impl; [exact H|]. intros comp Hc.
  apply Forall_forall. intros [[model label] params] Hin. simpl.
  intros E. apply Hc. rewrite E.
  apply elem_of_zip_l, elem_of_zip_r in Hin. exact Hin.
Qed.

(** X17. The loop zips the rows with the three component labels: rows of
    the table beyond the third are not read. *)
Theorem configure_ignores_rows_beyond_components
    (T0 T1 T2 s0 s1 s2 : V) (more_temperatures more_scales : list V)
    (plugin : Plugin V) :
  length more_temperatures = length more_scales ->
  configure default_temperature default_scale
    ([T0; T1; T2] ++ more_temperatures) ([s0; s1; s2] ++ more_scales) plugin
  = configure default_temperature default_scale [T0; T1; T2] [s0; s1; s2] plugin.
Proof using Type.
  intros Hlen. unfold configure, fit_params. simpl. rewrite Hlen, Nat.eqb_refl.
  reflexivity.
Qed.

End ConfigureProperties.

Lemma configure_keeps_other_components_example :
  configure 5000 1 [120; 450; 5777] [1; 2; 3] (edge_case.user_plugin ++ [])
  = app edge_case.user_plugin <$> configure 5000 1 [120; 450; 5777] [1; 2; 3] [].
Proof.
  apply (configure_keeps_other_components 5000 1 [120; 450; 5777] [1; 2; 3]
           edge_case.user_plugin []).
  constructor; [|constructor]. intros H. vm_compute in H.
  repeat (apply elem_of_cons in H as [H|H]; [discriminate H|]).
  inversion H.
Defined.

Lemma configure_ignores_rows_beyond_components_example :
  configure 5000 1 ([120; 450; 5777] ++ [9000]) ([1; 2; 3] ++ [4]) []
  = configure 5000 1 [120; 450; 5777] [1; 2; 3] [].
Proof.
  apply (configure_ignores_rows_beyond_components 5000 1 120 450 5777 1 2 3
           [9000] [4] []).
  reflexivity.
Defined.

(** ** The two wavelength selections *)


(** ** When the slope loop runs to its end *)

Lemma slope_loop_returns_iff (wavelength : Quantity) (rows : list MaskedArray1) :
  forall i st,
    is_Some (slope_loop wavelength i rows st) <->
    (forall j pxl, rows !! j = Some pxl -> forallb id (mask1 pxl) = false ->
       is_Some (fit_pixel wavelength pxl) /\
       (i + j < length (betas st))%nat /\
       (i + j < length (mask1 (hotspot_distances st)))%nat).
Proof.
  induction rows as [|pxl rest IH]; intros i st; simpl.
  - split; [|intros _; eexists; reflexivity].
    intros _ j p Hj. rewrite lookup_nil in Hj. discriminate.
  - destruct (forallb id (mask1 pxl)) eqn:Hall; simpl.
    + rewrite IH. split.
      * intros H [|j] p Hj Hm; simpl in Hj.
        -- injection Hj as <-. congruence.
        -- replace (i + S j)%nat with (S i + j)%nat by lia. apply (H j p Hj Hm).
      * intros H j p Hj Hm. replace (S i + j)%nat with (i + S j)%nat by lia.
        apply (H (S j) p Hj Hm).
    + split.
      * intros Hrun.
        destruct (fit_pixel wavelength pxl) as [beta|] eqn:Hfit;
          [|destruct Hrun as [x Hx]; discriminate].
        simpl in Hrun.
        destruct (setitem i beta (betas st)) as [betas'|] eqn:Hb;
          [|destruct Hrun as [x Hx]; discriminate].
        simpl in Hrun.
        destruct (setitem i false (mask1 (hotspot_distances st))) as [mask'|] eqn:Hm;
          [|destruct Hrun as [x Hx]; discriminate].
        simpl in Hrun.
        apply setitem_Some in Hb as [Hib ->]. apply setitem_Some in Hm as [Him ->].
        pose proof (proj1 (IH _ _) Hrun) as Hrest. simpl in Hrest.
        intros [|j] p Hj Hmask; simpl in Hj.
        -- injection Hj as <-. rewrite Hfit, Nat.add_0_r.
           split; [eexists; reflexivity|]. split; assumption.
        -- destruct (Hrest j p Hj Hmask) as (H1 & H2 & H3).
           rewrite length_insert in H2. rewrite length_insert in H3.
           split; [exact H1|]. split; lia.
      * intros H. destruct (H 0%nat pxl eq_refl Hall) as ([beta Hfit] & Hib & Him).
        rewrite Nat.add_0_r in Hib, Him.
        rewrite Hfit. simpl. rewrite !setitem_is_Some by assumption. simpl.
        apply (proj2 (IH _ _)). simpl. intros j p Hj Hmask.
        destruct (H (S j) p Hj Hmask) as (H1 & H2 & H3).
        rewrite !length_insert. split; [exact H1|]. split; lia.
Qed.

(** X20. The distance image may be too short only where no spaxel is
    fitted: the slope cell runs to its end exactly when every spaxel
    with a valid sample in the sub-band has an entry in
    [hotspot_distances]; otherwise the assignment to
    [hotspot_distances.mask[i]] is out of bounds. *)
Theorem slope_fit_returns_iff_distances_cover_fitted_spaxels
    (wavelength : Quantity) (source_spectrum_ma : MaskedArray3)
    (distance_from_hotspot : array2 double) (rows : list MaskedArray1) :
  length (value wavelength) = snd (shape3 (data3 source_spectrum_ma)) ->
  extracted_spectrum_per_pixel source_spectrum_ma (long_wavelengths wavelength)
    = Some rows ->
  (is_Some (slope_fit wavelength source_spectrum_ma distance_from_hotspot) <->
   forall i pxl, rows !! i = Some pxl -> forallb id (mask1 pxl) = false ->
     (i < fst (shape2 distance_from_hotspot)
          * snd (shape2 distance_from_hotspot))%nat).
Proof.
  intros Hwl Hrows. unfold slope_fit. rewrite Hrows. simpl.
  rewrite slope_loop_returns_iff. simpl.
  assert (Hc : count_nonzero (long_wavelengths wavelength) <> 0%nat).
  { unfold extracted_spectrum_per_pixel in Hrows.
    destruct (count_nonzero (long_wavelengths wavelength) =? 0)%nat eqn:E;
      [discriminate|]. apply Nat.eqb_neq in E. exact E. }
  assert (Hfit : forall i pxl, rows !! i = Some pxl ->
            is_Some (fit_pixel wavelength pxl)).
  { unfold extracted_spectrum_per_pixel in Hrows.
    destruct (count_nonzero (long_wavelengths wavelength) =? 0)%nat;
      [discriminate|]. injection Hrows as <-.
    intros i pxl Hi. rewrite list_lookup_fmap in Hi.
    destruct (positions _ !! i) as [p|]; [|discriminate]. injection Hi as <-.
    destruct (fit_pixel_is_Some wavelength
                (mkMasked1
                   (select (long_wavelengths wavelength)
                      (spaxel (data3 source_spectrum_ma) p))
                   (select (long_wavelengths wavelength)
                      (spaxel (mask3 source_spectrum_ma) p))) Hc) as [beta Hb].
    - simpl. apply length_select_same.
      rewrite length_long_wavelengths, length_spaxel. exact Hwl.
    - exists beta. exact Hb. }
  assert (Hlen : length (items2 distance_from_hotspot)
                 = (fst (shape2 distance_from_hotspot)
                    * snd (shape2 distance_from_hotspot))%nat).
  { unfold items2. rewrite length_map.
    pose proof (length_positions (shape2 distance_from_hotspot, 0%nat)) as Hp.
    rewrite positions_positions2 in Hp. exact Hp. }
  rewrite length_replicate, length_replicate, Hlen.
  split.
  - intros H i pxl Hi Hm. destruct (H i pxl Hi Hm) as (_ & _ & H3). exact H3.
  - intros H i pxl Hi Hm. split; [apply (Hfit i pxl Hi)|].
    split; [apply lookup_lt_Some in Hi; exact Hi | apply (H i pxl Hi Hm)].
Qed.

Lemma lookup_map_seq_from_1 {A : Type} (f : nat -> A) (n i : nat) :
  (i < n)%nat -> map f (seq 1 n) !! i = Some (f (S i)).
Proof.
  intros Hi. change (map ?g ?l) with (g <$> l).
  rewrite list_lookup_fmap, lookup_seq_lt by exact Hi. reflexivity.
Qed.

(** ** The colours of the bands *)

Section ImageSettingsProperties.

Context {Color Defaults : Type}.
Variable cmap : Q -> Color.
Variable defaults : Defaults.

Local Abbreviation put :=
  (fun (d : gmap string (Settings Color Defaults)) (item : string * Color) =>
     <[fst item := mkSettings (snd item) defaults]> d).

Lemma foldl_put_other (items : list (string * Color)) (key : string) :
  key ∉ map fst items ->
  forall d, foldl put d items !! key = d !! key.
Proof using Type.
  induction items as [|[k c] items IH]; intros Hk d; simpl; [reflexivity|].
  simpl in Hk. apply not_elem_of_cons in Hk as [Hne Hk].
  rewrite (IH Hk). simpl. apply lookup_insert_ne. congruence.
Qed.

Lemma foldl_put_lookup (items : list (string * Color)) :
  NoDup (map fst items) ->
  forall d i key color, items !! i = Some (key, color) ->
    foldl put d items !! key = Some (mkSettings color defaults).
Proof using Type.
  induction items as [|[k c] items IH]; intros Hnd d i key color Hi.
  - rewrite lookup_nil in Hi. discriminate.
  - simpl in Hnd. apply NoDup_cons in Hnd as [Hk Hnd]. destruct i as [|i]; simpl in *.
    + injection Hi as -> ->. rewrite (foldl_put_other _ _ Hk).
      apply lookup_insert_eq.
    + apply (IH Hnd _ i). exact Hi.
Qed.

(** X21. Every band gets a setting of its own, with its own colour: the
    dictionary maps the label "Subset i+1" to the colour of the [i]-th of
    [n] equally spaced points of the colormap, from 0 for the first band
    to 1 for the last, and has no entry under another label. *)
Theorem img_settings_colours (n : nat) :
  (forall i, (i < n)%nat ->
     exists x,
       img_settings defaults (subset_labels n) (hex_colors cmap n)
         !! subset_label_of (S i)
       = Some (mkSettings (cmap x) defaults) /\
       linspace 0 1 n !! i = Some x /\
       ((2 <= n)%nat -> x == Qnat i / Qnat (n - 1))) /\
  (forall key, key ∉ subset_labels n ->
     img_settings defaults (subset_labels n) (hex_colors cmap n) !! key = None).
Proof using Type.
  assert (Hfst : map fst (zip (subset_labels n) (hex_colors cmap n))
                 = subset_labels n).
  { apply fst_zip. unfold subset_labels, hex_colors.
    rewrite !length_map, length_seq, length_linspace. lia. }
  split.
  - intros i Hi.
    destruct (lookup_lt_is_Some_2 (linspace 0 1 n) i) as [x Hx];
      [rewrite length_linspace; exact Hi|].
    exists x. split; [|split; [exact Hx|]].
    + unfold img_settings. apply (foldl_put_lookup _) with (i := i).
      * rewrite Hfst. unfold subset_labels.
        apply NoDup_fmap_2; [intros a b; apply subset_label_inj | apply NoDup_seq].
      * apply lookup_zip_with_Some. exists (subset_label_of (S i)), (cmap x).
        split; [reflexivity|]. split.
        -- unfold subset_labels. apply lookup_map_seq_from_1. exact Hi.
        -- unfold hex_colors. change (map ?f ?l) with (f <$> l).
           rewrite list_lookup_fmap, Hx. reflexivity.
    + intros Hn. destruct n as [|m]; [lia|].
      destruct (linspace_lookup 0 1 m i) as (v & Hv & Hev); [lia | lia |].
      replace (m + 1)%nat with (S m) in Hv by lia. rewrite Hx in Hv.
      injection Hv as <-. rewrite Hev. unfold edge_at.
      replace (S m - 1)%nat with m by lia. unfold Qdiv. ring.
  - intros key Hkey. unfold img_settings.
    rewrite foldl_put_other by (rewrite Hfst; exact Hkey).
    apply lookup_empty.
Qed.

End ImageSettingsProperties.

Lemma slope_fit_returns_iff_distances_cover_fitted_spaxels_example :
  is_Some (slope_fit example.long_axis (mkMasked3 example.flux example.mask)
             example.distance_from_hotspot).
Proof.
  apply (slope_fit_returns_iff_distances_cover_fitted_spaxels example.long_axis
           (mkMasked3 example.flux example.mask) example.distance_from_hotspot
           _ eq_refl eq_refl).
  intros i pxl Hi _. apply lookup_lt_Some in Hi. exact Hi.
Defined.
